(** * deba.js: conversion of a DOM tree to Markdown text

    A shallow embedding of [src/deba.js] and the properties of its
    escaping, whitespace handling, block rendering and tree traversal.

    JavaScript strings are sequences of UTF-16 code units; a code unit is
    modelled as a number in [N] and a string as a list of code units, so
    that the character classes of the regular expressions used by the
    source ([\s], [\d], [.]) are the ones of the language.  Element names
    are kept as [string]: the source only compares them, lower-cased, with
    ASCII literals. *)

From Stdlib Require Import List Bool Arith NArith ZArith QArith Lia.
From Stdlib Require Import Ascii String.
Import ListNotations.
Close Scope Q_scope.

Set Implicit Arguments.

(** ** Strings *)

Definition char := N.
Definition str := list char.

(** The code units of an ASCII literal. *)
Definition lit (s : string) : str := map N_of_ascii (list_ascii_of_string s).

Definition LF : char := 10%N.
Definition CR : char := 13%N.
Definition SP : char := 32%N.
Definition BACKSLASH : char := 92%N.

(** [Array.prototype.join]: the pieces with [sep] between them. *)
Fixpoint join (sep : str) (pieces : list str) : str :=
  match pieces with
  | [] => []
  | [p] => p
  | p :: rest => p ++ sep ++ join sep rest
  end.

Definition is_empty (text : str) : bool :=
  match text with [] => true | _ => false end.

Definition char_in (c : char) (set : str) : bool := existsb (N.eqb c) set.

(** The class [\s] of a JavaScript regular expression (WhiteSpace and
    LineTerminator code points); [String.prototype.trim] strips the same
    set. *)
Definition is_space (c : char) : bool :=
  ((9 <=? c) && (c <=? 13) || (c =? 32) || (c =? 160) || (c =? 5760)
   || (8192 <=? c) && (c <=? 8202) || (c =? 8232) || (c =? 8233)
   || (c =? 8239) || (c =? 8287) || (c =? 12288) || (c =? 65279))%N.

(** The class [\d]. *)
Definition is_digit (c : char) : bool := ((48 <=? c) && (c <=? 57))%N.

(** The characters that [.] does not match (no [s] flag). *)
Definition is_line_terminator (c : char) : bool :=
  ((c =? 10) || (c =? 13) || (c =? 8232) || (c =? 8233))%N.

(** The longest prefix whose characters satisfy [p], and the rest. *)
Fixpoint span_while (p : char -> bool) (text : str) : str * str :=
  match text with
  | [] => ([], [])
  | c :: rest =>
      if p c then let (a, b) := span_while p rest in (c :: a, b)
      else ([], text)
  end.

Fixpoint drop_while (p : char -> bool) (text : str) : str :=
  match text with
  | [] => []
  | c :: rest => if p c then drop_while p rest else text
  end.

(** [String.prototype.trim]. *)
Definition trim (text : str) : str :=
  rev (drop_while is_space (rev (drop_while is_space text))).

(** ** Utils *)

Module Utils.

(** [text != "" && text.search(/^\s*$/) == -1] *)
Definition isPresent (text : str) : bool :=
  negb (is_empty text) && negb (forallb is_space text).

(** [text.replace(/([*<\[\\_`~])/g, '\\$1')]: the characters escaped
    wherever they stand, [* < [ \ _ ` ~]. *)
Definition always_escaped : str := [42; 60; 91; 92; 95; 96; 126]%N.

Definition escape_char (c : char) : str :=
  if char_in c always_escaped then [BACKSLASH; c] else [c].

Definition escape_always (text : str) : str := flat_map escape_char text.

(** [text.replace(/^(\s*?)([#+\-=>])/g, '$1\\$2')].  Without the [m] flag
    [^] holds at index 0 only, so there is at most one match; the lazy
    [\s*?] stops at the first character of the class, which is the first
    character that is not white space. *)
Definition block_start : str := [35; 43; 45; 61; 62]%N.

Definition escape_block_start (text : str) : str :=
  let (ws, rest) := span_while is_space text in
  match rest with
  | c :: rest' =>
      if char_in c block_start then ws ++ BACKSLASH :: c :: rest' else text
  | [] => text
  end.

(** [text.replace(/(&.*?;)/g, '\\$1')].  A match starts at a [&] that
    has a [;] after it with no line terminator in between and ends at the
    first such [;]; the search resumes after the match.  [in_match] is
    true while the characters of a match are copied. *)
Definition AMP : char := 38%N.
Definition SEMI : char := 59%N.

Fixpoint semicolon_on_line (text : str) : bool :=
  match text with
  | [] => false
  | c :: rest =>
      if (c =? SEMI)%N then true
      else if is_line_terminator c then false
      else semicolon_on_line rest
  end.

Fixpoint escape_entities_from (in_match : bool) (text : str) : str :=
  match text with
  | [] => []
  | c :: rest =>
      if in_match then c :: escape_entities_from (negb (c =? SEMI)%N) rest
      else if (c =? AMP)%N && semicolon_on_line rest
           then BACKSLASH :: c :: escape_entities_from true rest
           else c :: escape_entities_from false rest
  end.

Definition escape_entities (text : str) : str := escape_entities_from false text.

(** [text.replace(/^(\s*\d+)\. /g, '$1\\. ')]: white space, one digit or
    more, a dot and a space, at index 0. *)
Definition DOT : char := 46%N.

Definition escape_ordinal (text : str) : str :=
  let (ws, rest) := span_while is_space text in
  let (digits, rest') := span_while is_digit rest in
  match digits, rest' with
  | _ :: _, d :: s :: tail =>
      if (d =? DOT)%N && (s =? SP)%N
      then ws ++ digits ++ BACKSLASH :: d :: s :: tail
      else text
  | _, _ => text
  end.

Definition escape (text : str) : str :=
  let text := escape_always text in
  let text := escape_block_start text in
  let text := escape_entities text in
  let text := escape_ordinal text in
  text.

(** [text.replace(/\s+/g, " ")]: each maximal run of white space becomes
    one space; [in_run] is true inside a run. *)
Fixpoint collapse_from (in_run : bool) (text : str) : str :=
  match text with
  | [] => []
  | c :: rest =>
      if is_space c
      then if in_run then collapse_from true rest
           else SP :: collapse_from true rest
      else c :: collapse_from false rest
  end.

Definition collapse (text : str) : str := collapse_from false text.

Definition normalise (text : str) : str := trim (collapse text).

End Utils.

(** ** Segments and the Stringifier *)

(** What a segment array holds: [Span] objects and bare strings.  The
    field of [SpanObj] is [this.text]. *)
Inductive Segment :=
| SpanObj (text : str)
| StringLit (s : str).

(** [new Span(text, useRaw)] *)
Definition Span (text : str) (useRaw : bool) : Segment :=
  SpanObj (if useRaw then text else Utils.escape text).

(** [segment.constructor.name] *)
Inductive TypeName := TSpan | TString.

Definition constructor_name (segment : Segment) : TypeName :=
  match segment with SpanObj _ => TSpan | StringLit _ => TString end.

Definition TypeName_eqb (a b : TypeName) : bool :=
  match a, b with
  | TSpan, TSpan | TString, TString => true
  | _, _ => false
  end.

(** [String(segment)], as [Array.prototype.join] converts its elements. *)
Definition toString (segment : Segment) : str :=
  match segment with SpanObj text => text | StringLit s => s end.

Definition join_segments (segments : list Segment) : str :=
  join [] (map toString segments).

Module Stringifier.

Definition Chunk : Type := option TypeName * list Segment.

(** The loop of [chunkUpSegments] over [this.segments.concat(null)]; an
    element [None] is the [null].  The result [None] is the [TypeError] of
    reading [segment.constructor] on [null]. *)
Fixpoint chunk_loop (todo : list (option Segment)) (chunks : list Chunk)
    (lastType : option TypeName) (currentChunk : list Segment)
    : option (list Chunk) :=
  match todo with
  | [] => Some chunks
  | segment :: todo' =>
      let differs :=
        match lastType, segment with
        | None, _ | _, None => true
        | Some t, Some s => negb (TypeName_eqb (constructor_name s) t)
        end in
      if differs then
        match currentChunk, segment with
        | _ :: _, None => Some (chunks ++ [(lastType, currentChunk)])
        | [], None => None
        | _ :: _, Some s =>
            chunk_loop todo' (chunks ++ [(lastType, currentChunk)])
                       (Some (constructor_name s)) [s]
        | [], Some s =>
            chunk_loop todo' chunks (Some (constructor_name s)) [s]
        end
      else
        match segment with
        | Some s => chunk_loop todo' chunks lastType (currentChunk ++ [s])
        | None => None
        end
  end.

Definition chunkUpSegments (segments : list Segment) : option (list Chunk) :=
  chunk_loop (map Some segments ++ [None]) [] None [].

Definition render_chunk (chunk : Chunk) : str :=
  let text := join_segments (snd chunk) in
  match fst chunk with
  | Some TSpan => Utils.normalise text
  | _ => text
  end.

Definition stringify (segments : list Segment) : option str :=
  match chunkUpSegments segments with
  | Some chunks => Some (join [] (map render_chunk chunks))
  | None => None
  end.

End Stringifier.

(** ** Blocks *)

(** [text.split(/\n{2,}/g)]: the separators are the maximal runs of two
    line feeds or more.  [current] is the piece being read, reversed;
    [in_separator] is true while the line feeds of a separator are
    skipped. *)
Fixpoint split_loop (in_separator : bool) (current : str) (text : str)
    : list str :=
  match text with
  | [] => [rev current]
  | c :: rest =>
      if in_separator && (c =? LF)%N then split_loop true current rest
      else
        match rest with
        | c' :: _ =>
            if (c =? LF)%N && (c' =? LF)%N
            then rev current :: split_loop true [] rest
            else split_loop false (c :: current) rest
        | [] => split_loop false (c :: current) rest
        end
  end.

Definition split_paragraphs (text : str) : list str := split_loop false [] text.

(** The block constructors with the arguments that follow [segments]. *)
Inductive Block :=
| Pre
| Heading (level : nat)
| ListItem (last : bool) (index : option nat)
| DefinitionTerm
| DefinitionDescription (last : bool)
| Paragraph.

Fixpoint uint_digits (d : Decimal.uint) : str :=
  match d with
  | Decimal.Nil => []
  | Decimal.D0 d => 48%N :: uint_digits d
  | Decimal.D1 d => 49%N :: uint_digits d
  | Decimal.D2 d => 50%N :: uint_digits d
  | Decimal.D3 d => 51%N :: uint_digits d
  | Decimal.D4 d => 52%N :: uint_digits d
  | Decimal.D5 d => 53%N :: uint_digits d
  | Decimal.D6 d => 54%N :: uint_digits d
  | Decimal.D7 d => 55%N :: uint_digits d
  | Decimal.D8 d => 56%N :: uint_digits d
  | Decimal.D9 d => 57%N :: uint_digits d
  end.

(** A list index converted to a string, as [this.index + ". "] does. *)
Definition number_to_string (n : nat) : str := uint_digits (Nat.to_uint n).

(** The loop of [Pre.prototype.toArray]. *)
Fixpoint Pre_loop (nodes : list str) (result : list str) : list str :=
  match nodes with
  | [] => result
  | node :: nodes' =>
      let normalised := Utils.normalise node in
      if Utils.isPresent normalised
      then Pre_loop nodes' (result ++ [normalised])
      else Pre_loop nodes' result
  end.

Definition Pre_toArray (segments : list Segment) : list Segment :=
  let nodes := split_paragraphs (join_segments segments) in
  let result := Pre_loop nodes [] in
  match result with
  | [] => []
  | _ :: _ => [StringLit (join [LF; LF] result ++ [LF; LF])]
  end.

(** ["######".substr(-level)]: the last [level] characters; a start
    before the beginning is clamped to it, and [-0] is [0]. *)
Definition heading_marks (level : nat) : str :=
  repeat 35%N (if (level =? 0)%nat then 6 else Nat.min level 6).

Definition Heading_toArray (segments : list Segment) (level : nat) : list Segment :=
  [StringLit (heading_marks level ++ [SP])] ++ segments ++ [StringLit [LF; LF]].

Definition ListItem_prefix (index : option nat) : str :=
  match index with
  | None => lit "* "
  | Some i => number_to_string i ++ lit ". "
  end.

Definition ListItem_toArray (segments : list Segment) (last : bool)
    (index : option nat) : list Segment :=
  [StringLit (ListItem_prefix index)] ++ segments
    ++ [StringLit ([LF] ++ (if last then [LF] else []))].

Definition DefinitionTerm_toArray (segments : list Segment) : list Segment :=
  segments ++ [StringLit [58%N; LF]].

Definition DefinitionDescription_toArray (segments : list Segment) (last : bool)
    : list Segment :=
  segments ++ [StringLit ([LF] ++ (if last then [LF] else []))].

Definition Paragraph_toArray (segments : list Segment) : list Segment :=
  segments ++ [StringLit [LF; LF]].

(** [block.toArray()] for the block built from [segments]. *)
Definition toArray (block : Block) (segments : list Segment) : list Segment :=
  match block with
  | Pre => Pre_toArray segments
  | Heading level => Heading_toArray segments level
  | ListItem last index => ListItem_toArray segments last index
  | DefinitionTerm => DefinitionTerm_toArray segments
  | DefinitionDescription last => DefinitionDescription_toArray segments last
  | Paragraph => Paragraph_toArray segments
  end.

(** ** The DOM, as far as the source reads it *)

Record Rect := {
  rect_left : Q;
  rect_right : Q;
  rect_top : Q;
  rect_bottom : Q
}.

(** The properties of an element that the source reads.  [matches] is
    [node.matches(selector)], where [None] stands for the exception the DOM
    raises on a selector it cannot parse; [innerText], [alt] and [value]
    are [None] for an element without that property (an element named
    [img] or [textarea] that is not an HTML one has no [alt] or [value]),
    on which [Utils.isPresent] and [Utils.escape] throw; [src] and [href]
    are the strings that [+] makes of the properties, for an HTML anchor
    the resolved URL and not the text of the attribute; [clientRects] is
    [getClientRects().length].  [attributes] are the attributes of the
    markup, which the source never reads. *)
Record Props := {
  matches : string -> option bool;
  innerText : option str;
  alt : option str;
  src : str;
  href : str;
  value : option str;
  offsetWidth : Z;
  offsetHeight : Z;
  clientRects : nat;
  boundingClientRect : Rect;
  attributes : list (string * str)
}.

(** The nodes below the root element of a parsed document: elements, with
    [nodeName.toLowerCase()] as their name, text nodes and comments. *)
#[warnings="-register-all"] Inductive Node :=
| Element (nodeName : string) (props : Props) (childNodes : list Node)
| Text (data : str)
| Comment (data : str).

Definition nodeName_lower (node : Node) : string :=
  match node with
  | Element name _ _ => name
  | Text _ => "#text"
  | Comment _ => "#comment"
  end.

(** [node.nodeType == 1] *)
Definition is_element (node : Node) : bool :=
  match node with Element _ _ _ => true | _ => false end.

Definition childNodes_of (node : Node) : list Node :=
  match node with Element _ _ children => children | _ => [] end.

(** [node.textContent]: the data of the text nodes below an element, in
    document order. *)
Fixpoint textContent (node : Node) : str :=
  match node with
  | Text data => data
  | Comment data => data
  | Element _ _ children =>
      flat_map (fun child =>
                  match child with
                  | Comment _ => []
                  | _ => textContent child
                  end) children
  end.

(** Where a node stands in its tree: the lower-cased name of its parent
    ([None] when [parentNode] is [null]), the siblings before it, nearest
    first, and the siblings after it. *)
Record Context := {
  parentNode : option string;
  before : list Node;
  after : list Node
}.

(** [node.ownerDocument], as far as it is read: [document.hidden], the
    [scrollWidth] of the root element and the [scrollHeight] of every
    element that [documentElement.querySelectorAll("*")] lists. *)
Record DomDocument := {
  hidden : bool;
  scrollWidth : Z;
  scrollHeights : list Z
}.

Record Options := {
  images : bool;
  links : bool;
  excludeHidden : bool;
  exclude : option (list string)
}.

(** [{ images: true, links: true, excludeHidden: true }] *)
Definition default_options : Options :=
  {| images := true; links := true; excludeHidden := true; exclude := None |}.

(** ** Document and the traversal state *)

(** [this.args] of a [Document]: empty after [start()] without arguments,
    a constructor and its arguments after [break], and what
    [blockContent] leaves behind ([null], the segments, the arguments),
    from which no block can be built again. *)
Inductive Args :=
| ArgsEmpty
| ArgsBlock (block : Block)
| ArgsSpent.

(** The fields of the [Document] and of the [Extractor] that owns it,
    which change during a traversal. *)
Record State := {
  content : str;
  segments : list Segment;
  args : Args;
  justAppendedBr : bool;
  inBlockquote : bool;
  groupWithNext : bool
}.

(** A method that changes the state; [None] is a thrown exception. *)
Definition Proc := State -> option State.

Definition skip : Proc := fun st => Some st.
Definition throw : Proc := fun _ => None.
Definition seq (f g : Proc) : Proc :=
  fun st => match f st with Some st' => g st' | None => None end.

Declare Scope proc_scope.
Delimit Scope proc_scope with proc.
Bind Scope proc_scope with Proc.
Notation "f ;; g" := (seq f g) (at level 61, right associativity) : proc_scope.
Open Scope proc_scope.

Definition set_content (text : str) (st : State) : State :=
  {| content := text; segments := segments st; args := args st;
     justAppendedBr := justAppendedBr st; inBlockquote := inBlockquote st;
     groupWithNext := groupWithNext st |}.

Definition set_segments (segs : list Segment) (st : State) : State :=
  {| content := content st; segments := segs; args := args st;
     justAppendedBr := justAppendedBr st; inBlockquote := inBlockquote st;
     groupWithNext := groupWithNext st |}.

Definition set_args (a : Args) (st : State) : State :=
  {| content := content st; segments := segments st; args := a;
     justAppendedBr := justAppendedBr st; inBlockquote := inBlockquote st;
     groupWithNext := groupWithNext st |}.

Definition set_justAppendedBr (b : bool) (st : State) : State :=
  {| content := content st; segments := segments st; args := args st;
     justAppendedBr := b; inBlockquote := inBlockquote st;
     groupWithNext := groupWithNext st |}.

Definition set_inBlockquote (b : bool) (st : State) : State :=
  {| content := content st; segments := segments st; args := args st;
     justAppendedBr := justAppendedBr st; inBlockquote := b;
     groupWithNext := groupWithNext st |}.

Definition set_groupWithNext (b : bool) (st : State) : State :=
  {| content := content st; segments := segments st; args := args st;
     justAppendedBr := justAppendedBr st; inBlockquote := inBlockquote st;
     groupWithNext := b |}.

Module Document.

(** [this.segments.push(segment)] *)
Definition push (segment : Segment) : Proc :=
  fun st => Some (set_segments (segments st ++ [segment]) st).

(** [start(args)] *)
Definition start (a : Args) : Proc :=
  fun st => Some (set_args a (set_segments [] st)).

(** [segment instanceof Span && Utils.isPresent(segment.toString())] *)
Definition present_span (segment : Segment) : bool :=
  match segment with
  | SpanObj text => Utils.isPresent text
  | StringLit _ => false
  end.

Definition isPresent (st : State) : bool := existsb present_span (segments st).

(** [blockContent()]: the text of the block, or the [TypeError] of
    binding a constructor that is not there, or of the Stringifier. *)
Definition blockContent (st : State) : option (str * State) :=
  match args st with
  | ArgsBlock block =>
      match Stringifier.stringify (toArray block (segments st)) with
      | Some text => Some (text, set_args ArgsSpent st)
      | None => None
      end
  | _ => None
  end.

Definition finish : Proc :=
  fun st =>
    if negb (isPresent st) then Some st
    else
      let st := if inBlockquote st
                then set_content (content st ++ lit "> ") st else st in
      match blockContent st with
      | Some (text, st') => Some (set_content (content st ++ text) st')
      | None => None
      end.

(** [break(blockType, ...arguments)] *)
Definition break (block : Block) : Proc := finish ;; start (ArgsBlock block).

(** [new Document(extractor)], with the flags [extract] sets before. *)
Definition initial : State :=
  {| content := []; segments := []; args := ArgsEmpty;
     justAppendedBr := false; inBlockquote := false; groupWithNext := false |}.

End Document.

(** ** Extractor *)

Definition includes (tags : list string) (name : string) : bool :=
  existsb (String.eqb name) tags.

Definition HEADING_TAGS : list string :=
  ["h1"; "h2"; "h3"; "h4"; "h5"; "h6"]%string.

Definition BLOCK_INITIATING_TAGS : list string :=
  ["address"; "article"; "aside"; "body"; "blockquote"; "div"; "dd"; "dl";
   "dt"; "figure"; "footer"; "header"; "li"; "main"; "nav"; "ol"; "p"; "pre";
   "section"; "td"; "th"; "ul"]%string.

Definition SKIP_TAGS : list string :=
  ["head"; "style"; "script"; "noscript"]%string.

(** The type selectors of [BREAK_TAGS_QUERY]. *)
Definition BREAK_TAGS : list string := HEADING_TAGS ++ BLOCK_INITIATING_TAGS.

(** What [this.ENHANCERS[nodeName]] evaluates to: a marker, [undefined],
    or, for the two lower-case names that every object inherits from
    [Object.prototype], a value that is not a string. *)
Inductive Enhancer :=
| Marker (text : str)
| Inherited
| Undefined.

Definition ENHANCERS (name : string) : Enhancer :=
  if (name =? "b")%string || (name =? "strong")%string then Marker (lit "**")
  else if (name =? "i")%string || (name =? "em")%string then Marker (lit "*")
  else if (name =? "constructor")%string || (name =? "__proto__")%string
       then Inherited
  else Undefined.

(** [node.querySelectorAll(this.BREAK_TAGS_QUERY).length != 0]: some
    element below [node] has one of the names of [BREAK_TAGS]. *)
Fixpoint is_or_has_break_tag (node : Node) : bool :=
  match node with
  | Element name _ children =>
      includes BREAK_TAGS name || existsb is_or_has_break_tag children
  | _ => false
  end.

Definition has_break_descendant (node : Node) : bool :=
  existsb is_or_has_break_tag (childNodes_of node).

(** The loop [while((sibling = sibling.previousElementSibling)) index++]
    over the siblings before the node. *)
Fixpoint count_previous (siblings : list Node) (index : nat) : nat :=
  match siblings with
  | [] => index
  | sibling :: siblings' =>
      if is_element sibling then count_previous siblings' (index + 1)
      else count_previous siblings' index
  end.

(** [node.nextElementSibling == null] *)
Definition nextElementSibling_is_null (ctx : Context) : bool :=
  negb (existsb is_element (after ctx)).

(** [parseInt(nodeName[1])] *)
Definition parseInt_second (name : string) : nat :=
  match String.get 1 name with
  | Some c => nat_of_ascii c - 48
  | None => 0
  end.

Inductive TextProperty := InnerTextProperty | TextContentProperty.

Record PageBounds := {
  bounds_top : Z;
  bounds_right : Z;
  bounds_bottom : Z;
  bounds_left : Z
}.

Definition Qlt_bool (a b : Q) : bool := negb (Qle_bool b a).

(** What the line-break step of [process] leaves to do. *)
Inductive Flow :=
| Return (st : State)
| Continue (st : State).

Section Extractor.

(** The fields the constructor sets from its options and its first node. *)
Variable options : Options.
Variable textProperty : TextProperty.
Variable domDocument : DomDocument.

Definition isDomReal : bool := negb (hidden domDocument).

Definition getPageBounds : option PageBounds :=
  if negb isDomReal || negb (excludeHidden options) then None
  else
    let tallestHeight :=
      fold_left (fun tallest elementHeight =>
                   if (elementHeight >? tallest)%Z then elementHeight
                   else tallest)
                (scrollHeights domDocument) 0%Z in
    Some {| bounds_top := 0; bounds_right := scrollWidth domDocument;
            bounds_bottom := tallestHeight; bounds_left := 0 |}.

Definition pageBounds : option PageBounds := getPageBounds.

(** [isElementVisible(node)]; [None] is the [TypeError] of reading a
    field of [pageBounds] when it is [null]. *)
Definition isElementVisible (node : Node) : option bool :=
  if negb isDomReal then Some true
  else
    match node with
    | Element _ p _ =>
        if (offsetWidth p =? 0)%Z && (offsetHeight p =? 0)%Z
           && (clientRects p =? 0)%nat
        then Some false
        else
          match pageBounds with
          | None => None
          | Some bounds =>
              let nodeBounds := boundingClientRect p in
              Some (Qlt_bool (rect_left nodeBounds) (inject_Z (bounds_right bounds))
                    && Qlt_bool (inject_Z (bounds_left bounds)) (rect_right nodeBounds)
                    && Qlt_bool (rect_top nodeBounds) (inject_Z (bounds_bottom bounds))
                    && Qlt_bool (inject_Z (bounds_top bounds)) (rect_bottom nodeBounds))
          end
    | _ => Some true
    end.

(** The loop over [this.options.exclude]: [Some true] when a selector
    matches; a node that is not an element has no [matches] method. *)
Fixpoint matches_any (node : Node) (selectors : list string) : option bool :=
  match selectors with
  | [] => Some false
  | selector :: selectors' =>
      match node with
      | Element _ p _ =>
          match matches p selector with
          | Some true => Some true
          | Some false => matches_any node selectors'
          | None => None
          end
      | _ => None
      end
  end.

(** The three tests at the head of [process] that make it return at
    once. *)
Definition skipped (node : Node) : option bool :=
  if includes SKIP_TAGS (nodeName_lower node) then Some true
  else
    match
      match exclude options with
      | Some selectors => matches_any node selectors
      | None => Some false
      end
    with
    | None => None
    | Some true => Some true
    | Some false =>
        if excludeHidden options
        then option_map negb (isElementVisible node)
        else Some false
    end.

(** [node[this.textProperty]] of an element; [None] when the property is
    [undefined], on which [Utils.isPresent] throws. *)
Definition node_text (node : Node) : option str :=
  match textProperty, node with
  | InnerTextProperty, Element _ p _ => innerText p
  | InnerTextProperty, _ => None
  | TextContentProperty, _ => Some (textContent node)
  end.

(** "Handle repeated brs by making a paragraph break". *)
Definition line_break_step (nodeName : string) (st : State) : option Flow :=
  if (nodeName =? "br")%string then
    if justAppendedBr st then
      option_map Return
        (Document.break Paragraph (set_justAppendedBr false st))
    else Some (Continue (set_justAppendedBr true st))
  else if justAppendedBr st then
    option_map Continue
      (Document.push (StringLit [LF]) (set_justAppendedBr false st))
  else Some (Continue st).

(** [processFlowContent(node)], with [processChildren(node)] as [children]. *)
Definition processFlowContent (children : Proc) : Proc :=
  (fun st => Some (set_groupWithNext true st)) ;;
  children ;;
  (fun st => Some (set_groupWithNext false st)) ;;
  Document.break Paragraph.

(** A test of the text of an anchor or of an emphasis element. *)
Definition if_text_present (node : Node) (body : Proc) : Proc :=
  match node_text node with
  | None => throw
  | Some text => if Utils.isPresent text then body else skip
  end.

(** The part of [process] after the line-break step, for an element
    [name] with properties [p]; [children] is [processChildren(node)]. *)
Definition process_element (node : Node) (name : string) (p : Props)
    (ctx : Context) (children : Proc) : Proc :=
  match ENHANCERS name with
  | Marker marker =>
      if_text_present node
        (let enhancer := Span marker true in
         Document.push enhancer ;; children ;; Document.push enhancer)
  | Inherited =>
      (* The Span made of such a value has no string to give: the next
         [finish] throws on it, and one is always reached. *)
      if_text_present node throw
  | Undefined =>
      if images options && (name =? "img")%string then
        match alt p with
        | Some text =>
            Document.push
              (Span (lit "![" ++ Utils.escape text ++ lit "](" ++ src p ++ lit ")")
                    true)
        | None => throw
        end
      else if links options && (name =? "a")%string then
        if_text_present node
          (if has_break_descendant node then children
           else
             Document.push (Span (lit "[") true) ;;
             children ;;
             Document.push (Span (lit "](" ++ href p ++ lit ")") true))
      else if (name =? "blockquote")%string then
        (fun st => Some (set_inBlockquote true st)) ;;
        Document.break Paragraph ;;
        processFlowContent children ;;
        (fun st => Some (set_inBlockquote false st))
      else if (name =? "li")%string then
        match parentNode ctx with
        | None => throw
        | Some parent =>
            let index :=
              if (parent =? "ol")%string
              then Some (count_previous (before ctx) 1) else None in
            Document.break (ListItem (nextElementSibling_is_null ctx) index) ;;
            processFlowContent children
        end
      else if (name =? "dt")%string then
        Document.break DefinitionTerm ;;
        processFlowContent children
      else if (name =? "dd")%string then
        Document.break (DefinitionDescription (nextElementSibling_is_null ctx)) ;;
        processFlowContent children
      else if (name =? "pre")%string then
        Document.break Pre ;;
        children ;;
        Document.break Paragraph
      else if (name =? "textarea")%string then
        Document.break Pre ;;
        match value p with
        | Some text => Document.push (Span text false)
        | None => throw
        end ;;
        Document.break Paragraph
      else if includes BLOCK_INITIATING_TAGS name then
        (fun st =>
           if groupWithNext st then Some (set_groupWithNext false st)
           else Document.break Paragraph st) ;;
        children ;;
        Document.break Paragraph
      else if includes HEADING_TAGS name then
        Document.break (Heading (parseInt_second name)) ;;
        children ;;
        Document.break Paragraph
      else children
  end.

(** The part of [process] after the line-break step. *)
Definition dispatch (node : Node) (ctx : Context) (children : Proc) : Proc :=
  match node with
  | Text data => Document.push (Span data false)
  | Element name p _ => process_element node name p ctx children
  | Comment _ => children
  end.

(** The body of [process(node)], with [processChildren(node)] as
    [children]. *)
Definition process_node (node : Node) (ctx : Context) (children : Proc) : Proc :=
  fun st =>
    match skipped node with
    | None => None
    | Some true => Some st
    | Some false =>
        match line_break_step (nodeName_lower node) st with
        | None => None
        | Some (Return st') => Some st'
        | Some (Continue st') => dispatch node ctx children st'
        end
    end.

Fixpoint process (node : Node) (ctx : Context) {struct node} : Proc :=
  process_node node ctx
    (match node with
     | Element name _ children =>
         (fix process_each (done todo : list Node) {struct todo} : Proc :=
            match todo with
            | [] => skip
            | child :: todo' =>
                process child
                  {| parentNode := Some name; before := done; after := todo' |} ;;
                process_each (child :: done) todo'
            end) [] children
     | _ => skip
     end).

(** The loop of [processChildren] from a child on: [done] are the
    children already processed, nearest first. *)
Fixpoint process_each (parent : string) (done todo : list Node) : Proc :=
  match todo with
  | [] => skip
  | child :: todo' =>
      process child
        {| parentNode := Some parent; before := done; after := todo' |} ;;
      process_each parent (child :: done) todo'
  end.

Definition processChildren (node : Node) : Proc :=
  match node with
  | Element name _ children => process_each name [] children
  | _ => skip
  end.

End Extractor.

(** ** The entry point *)

(** A node handed to the transformation, with its place in its tree and
    its document. *)
Record Located := {
  located_node : Node;
  located_context : Context;
  ownerDocument : DomDocument
}.

(** An element of the input: a node, or a document or a window, whose
    root element ([None] when there is none) stands for it. *)
Inductive InputItem :=
| NodeInput (node : Located)
| DocumentInput (document : DomDocument) (documentElement : option Node)
| WindowInput (document : DomDocument) (documentElement : option Node).

Inductive Input :=
| One (item : InputItem)
| Many (items : list InputItem).

Definition arrayify (input : Input) : list InputItem :=
  match input with
  | Many items => items
  | One item => [item]
  end.

Definition root_context : Context :=
  {| parentNode := Some "#document"%string; before := []; after := [] |}.

Definition convertNode (input : InputItem) : option Located :=
  match input with
  | NodeInput node => Some node
  | DocumentInput document root | WindowInput document root =>
      option_map (fun element =>
                    {| located_node := element;
                       located_context := root_context;
                       ownerDocument := document |}) root
  end.

(** ["innerText" in this.nodes[0] ? "innerText" : "textContent"] *)
Definition choose_textProperty (first : Node) : TextProperty :=
  match first with
  | Element _ p _ =>
      match innerText p with
      | Some _ => InnerTextProperty
      | None => TextContentProperty
      end
  | _ => TextContentProperty
  end.

(** The loop of [extract], with the [process] of the extractor; a [null]
    among the nodes has no [nodeName]. *)
Fixpoint extract_loop (process : Node -> Context -> Proc)
    (nodes : list (option Located)) : Proc :=
  match nodes with
  | [] => skip
  | node :: nodes' =>
      Document.break Paragraph ;;
      match node with
      | Some n => process (located_node n) (located_context n)
      | None => throw
      end ;;
      Document.break Paragraph ;;
      extract_loop process nodes'
  end.

(** [new Extractor(input, options)] followed by the loop of [extract]:
    the state when the loop ends.  With no node the constructor returns
    before it sets the fields that [process] reads, and the loop does not
    call [process]. *)
Definition extract_state (input : Input) (options : Options) : option State :=
  let nodes := map convertNode (arrayify input) in
  match nodes with
  | [] => extract_loop (fun _ _ => throw) nodes Document.initial
  | None :: _ => None
  | Some first :: _ =>
      extract_loop
        (process options (choose_textProperty (located_node first))
                 (ownerDocument first))
        nodes Document.initial
  end.

(** [this.document.getContent()] when the loop ends. *)
Definition extract_content (input : Input) (options : Options) : option str :=
  option_map content (extract_state input options).

(** [deba(input, options)]: [(new Extractor(input, options)).extract()]. *)
Definition deba (input : Input) (options : Options) : option str :=
  option_map trim (extract_content input options).

(** ** Sample trees *)

(** An element as a parser without a layout engine gives it: no
    [innerText], no boxes. *)
Definition plain_props : Props :=
  {| matches := fun _ => Some false; innerText := None;
     alt := None; src := []; href := []; value := None;
     offsetWidth := 0; offsetHeight := 0; clientRects := 0;
     boundingClientRect :=
       {| rect_left := 0; rect_right := 0; rect_top := 0; rect_bottom := 0 |};
     attributes := [] |}.

Definition elem (name : string) (children : list Node) : Node :=
  Element name plain_props children.

(** A document that is not shown ([document.hidden] is true). *)
Definition hidden_document : DomDocument :=
  {| hidden := true; scrollWidth := 0; scrollHeights := [] |}.

(** A detached node of [hidden_document]'s, under a fragment. *)
Definition detached (node : Node) : Input :=
  One (NodeInput {| located_node := node;
                    located_context :=
                      {| parentNode := Some "#document-fragment"%string;
                         before := []; after := [] |};
                    ownerDocument := hidden_document |}).

Definition ul_a_b : Node :=
  elem "ul" [elem "li" [Text (lit "a")]; elem "li" [Text (lit "b")]].

(** ** Predicates used in the statements *)

(** Two white-space characters side by side somewhere in [text]. *)
Fixpoint has_space_run (text : str) : bool :=
  match text with
  | c :: (c' :: _) as rest => is_space c && is_space c' || has_space_run rest
  | _ => false
  end.

(** Every white-space character of [text] is one space that follows a
    character which is not white space ([in_run]: the character before
    [text] is white space). *)
Fixpoint single_spaced (in_run : bool) (text : str) : bool :=
  match text with
  | [] => true
  | c :: rest =>
      if is_space c then negb in_run && (c =? SP)%N && single_spaced true rest
      else single_spaced false rest
  end.

(** [text] does not begin with white space. *)
Definition starts_clean (text : str) : bool :=
  match text with
  | [] => true
  | c :: _ => negb (is_space c)
  end.

(** The characters that [escape] escapes in some places only:
    [# + - = >] at the start of a block, [&] before an entity, [.] after a
    number. *)
Definition sometimes_escaped : str := [35; 43; 45; 61; 62; 38; 46]%N.

(** The characters with a meaning everywhere, as the specification
    lists them: the backslash and [* _ ~ ` < []. *)
Definition markdown_characters : str := lit "\*_~`<[".

(** A character that [escape] never touches. *)
Definition no_markdown_meaning (c : char) : bool :=
  negb (char_in c markdown_characters) && negb (char_in c sometimes_escaped).

(** The chunks of the Stringifier, written as a recursion on the
    segments: the maximal runs of segments of one type.  [current] is
    the run being read, of type [t]. *)
Fixpoint runs (t : TypeName) (current : list Segment) (segments : list Segment)
    : list Stringifier.Chunk :=
  match segments with
  | [] => [(Some t, current)]
  | s :: rest =>
      if TypeName_eqb (constructor_name s) t then runs t (current ++ [s]) rest
      else (Some t, current) :: runs (constructor_name s) [s] rest
  end.

(** The paragraphs that a preformatted block keeps, in the words of the
    specification: the text of the children, split on runs of two line
    feeds or more, each paragraph normalised, the empty ones dropped. *)
Definition Pre_survivors (segs : list Segment) : list str :=
  filter (fun p => negb (is_empty p))
         (map Utils.normalise (split_paragraphs (join_segments segs))).

(** Paragraphs with a blank line between them and one after the last:
    each is followed by two line feeds. *)
Definition blank_line_after (paragraphs : list str) : str :=
  flat_map (fun p => p ++ [LF; LF]) paragraphs.

(** A preformatted text with a run of three line feeds, a single line
    feed, runs of spaces and a paragraph of white space. *)
Definition pre_sample : str :=
  lit "a  b" ++ [LF; LF; LF; SP] ++ lit "c" ++ [LF] ++ lit "d "
    ++ [LF; LF; 9%N; LF; LF].

(** The prefix [finish] puts before a block inside a blockquote. *)
Definition blockquote_prefix (st : State) : str :=
  if inBlockquote st then lit "> " else [].

(** The state after a pending line break has been pushed as a bare
    string. *)
Definition flush_line_break (st : State) : State :=
  if justAppendedBr st
  then set_segments (segments st ++ [StringLit [LF]]) (set_justAppendedBr false st)
  else st.

(** The state [finish] leaves when it appends [rendered]. *)
Definition finished (st : State) (rendered : str) : State :=
  set_args ArgsSpent
    (set_content (content st ++ blockquote_prefix st ++ rendered) st).

(** A [Span] without content. *)
Definition blank_span (segment : Segment) : bool :=
  match segment with
  | SpanObj text => negb (Utils.isPresent text)
  | StringLit _ => false
  end.

(** [p] with other attributes in the markup. *)
Definition with_attributes (attrs : list (string * str)) (p : Props) : Props :=
  {| matches := matches p; innerText := innerText p;
     alt := alt p; src := src p; href := href p; value := value p;
     offsetWidth := offsetWidth p; offsetHeight := offsetHeight p;
     clientRects := clientRects p; boundingClientRect := boundingClientRect p;
     attributes := attrs |}.

(** [p] with another [href]. *)
Definition with_href (url : str) (p : Props) : Props :=
  {| matches := matches p; innerText := innerText p;
     alt := alt p; src := src p; href := url; value := value p;
     offsetWidth := offsetWidth p; offsetHeight := offsetHeight p;
     clientRects := clientRects p; boundingClientRect := boundingClientRect p;
     attributes := attributes p |}.

Definition br : Node := elem "br" [].

(** [<a href="http://e.com">t</a>]: the [href] property of such an anchor
    is the resolved URL, which ends with the path [/]. *)
Definition a_t : Node :=
  Element "a" (with_href (lit "http://e.com/") plain_props) [Text (lit "t")].

(** [<ol start="5"><li>x</li><li>y</li></ol>] *)
Definition ol_x_y : Node :=
  Element "ol" (with_attributes [("start"%string, lit "5")] plain_props)
    [elem "li" [Text (lit "x")]; elem "li" [Text (lit "y")]].

(** [<p>a<br><br>b</p>] and [<p>a<br>b</p>] *)
Definition p_a_br_br_b : Node :=
  elem "p" [Text (lit "a"); br; br; Text (lit "b")].

Definition p_a_br_b : Node :=
  elem "p" [Text (lit "a"); br; Text (lit "b")].

(** [<ul><li>a<br><br>b</li><li>c</li></ul>] *)
Definition ul_br_br : Node :=
  elem "ul" [elem "li" [Text (lit "a"); br; br; Text (lit "b")];
             elem "li" [Text (lit "c")]].

Definition links_off : Options :=
  {| images := true; links := false; excludeHidden := true; exclude := None |}.

(** An open paragraph that holds the Span [a], outside and inside a
    blockquote, and one that holds a blank Span. *)
Definition paragraph_a : State :=
  {| content := []; segments := [SpanObj (lit "a")];
     args := ArgsBlock Paragraph;
     justAppendedBr := false; inBlockquote := false; groupWithNext := false |}.

Definition quoted_a : State :=
  {| content := []; segments := [SpanObj (lit "a")];
     args := ArgsBlock Paragraph;
     justAppendedBr := false; inBlockquote := true; groupWithNext := false |}.

Definition paragraph_blank : State :=
  {| content := lit "x"; segments := [SpanObj (lit "  ")];
     args := ArgsBlock Paragraph;
     justAppendedBr := false; inBlockquote := false; groupWithNext := false |}.

(** The place of a child without siblings. *)
Definition only_child (parent : string) : Context :=
  {| parentNode := Some parent; before := []; after := [] |}.

(** An open paragraph without segments. *)
Definition fresh_paragraph : State :=
  {| content := []; segments := []; args := ArgsBlock Paragraph;
     justAppendedBr := false; inBlockquote := false; groupWithNext := false |}.

(** Two line feeds side by side somewhere in [text]. *)
Fixpoint has_blank_line (text : str) : bool :=
  match text with
  | c :: (c' :: _) as rest => (c =? LF)%N && (c' =? LF)%N || has_blank_line rest
  | _ => false
  end.

Definition starts_with_LF (text : str) : bool :=
  match text with
  | c :: _ => (c =? LF)%N
  | [] => false
  end.

(** A character that the first and the third replacement of [escape]
    leave alone: not one of [* < [ \ _ ` ~], and not [&]. *)
Definition inert (c : char) : bool :=
  negb (char_in c Utils.always_escaped) && negb (c =? Utils.AMP)%N.

Definition not_backslash (c : char) : bool := negb (c =? BACKSLASH)%N.

Definition not_space (c : char) : bool := negb (is_space c).

Definition same_type (a b : option TypeName) : bool :=
  match a, b with
  | Some x, Some y => TypeName_eqb x y
  | None, None => true
  | _, _ => false
  end.

(** Chunks side by side have different types. *)
Fixpoint alternating (chunks : list Stringifier.Chunk) : bool :=
  match chunks with
  | a :: (b :: _) as rest => negb (same_type (fst a) (fst b)) && alternating rest
  | _ => true
  end.

(** A chunk holds a segment at least, and segments of its type only. *)
Definition well_typed_chunk (chunk : Stringifier.Chunk) : bool :=
  match chunk with
  | (Some t, s :: rest) =>
      forallb (fun x => TypeName_eqb (constructor_name x) t) (s :: rest)
  | _ => false
  end.

(** The type of the last segment of [segments], or [t] when there is
    none. *)
Fixpoint last_type (t : TypeName) (segments : list Segment) : TypeName :=
  match segments with
  | [] => t
  | s :: rest => last_type (constructor_name s) rest
  end.

(** Induction on a node, with the property at hand for the children of
    an element. *)
Section Node_induction.

Variable P : Node -> Prop.
Hypothesis P_element :
  forall name p children, Forall P children -> P (Element name p children).
Hypothesis P_text : forall data, P (Text data).
Hypothesis P_comment : forall data, P (Comment data).

Fixpoint Node_induction (node : Node) : P node :=
  match node with
  | Element name p children =>
      P_element name p
        ((fix each (l : list Node) : Forall P l :=
            match l with
            | [] => Forall_nil P
            | child :: rest => Forall_cons child (Node_induction child) (each rest)
            end) children)
  | Text data => P_text data
  | Comment data => P_comment data
  end.

End Node_induction.

(** [f], when it returns, leaves a state related by [R] to the one it
    was called in. *)
Definition respects (R : State -> State -> Prop) (f : Proc) : Prop :=
  forall st st', f st = Some st' -> R st st'.

(** The output of [st'] is the output of [st] with something appended,
    which is empty or ends with a line feed. *)
Definition appends_lines (st st' : State) : Prop :=
  exists suffix,
    content st' = content st ++ suffix
    /\ (suffix = [] \/ exists text, suffix = text ++ [LF]).

(** [args] begins with a block constructor, as after [break]. *)
Definition ready (st : State) : bool :=
  match args st with
  | ArgsBlock _ => true
  | _ => false
  end.

(** [f] returns when called in a ready state, and leaves a ready state. *)
Definition returns_ready (f : Proc) : Prop :=
  forall st, ready st = true -> exists st', f st = Some st' /\ ready st' = true.

(** No element of the tree has a name that [ENHANCERS] inherits, each
    has the text property that the extractor reads, each [img] has an
    [alt] and each [textarea] a [value]. *)
Fixpoint defined_node (textProperty : TextProperty) (node : Node) : bool :=
  match node with
  | Element name p children =>
      match ENHANCERS name with Inherited => false | _ => true end
      && match textProperty, innerText p with
         | InnerTextProperty, None => false
         | _, _ => true
         end
      && match alt p with
         | None => negb (name =? "img")%string
         | Some _ => true
         end
      && match value p with
         | None => negb (name =? "textarea")%string
         | Some _ => true
         end
      && forallb (defined_node textProperty) children
  | _ => true
  end.

(** Every node of the input is there, has a parent, and is defined for
    the text property chosen from the first node. *)
Definition input_defined (input : Input) : bool :=
  match map convertNode (arrayify input) with
  | (Some first :: _) as nodes =>
      forallb (fun node =>
                 match node with
                 | Some n =>
                     defined_node (choose_textProperty (located_node first))
                                  (located_node n)
                     && match parentNode (located_context n) with
                        | Some _ => true
                        | None => false
                        end
                 | None => false
                 end) nodes
  | None :: _ => false
  | [] => true
  end.

(** The names of the elements that [process] ends with a paragraph
    break: [textarea], the block-initiating tags and the headings. *)
Definition block_names : list string :=
  "textarea"%string :: BLOCK_INITIATING_TAGS ++ HEADING_TAGS.

(** [f], when it returns, leaves an empty buffer for a paragraph. *)
Definition ends_fresh (f : Proc) : Prop :=
  forall st st', f st = Some st' ->
    segments st' = [] /\ args st' = ArgsBlock Paragraph.

(** [<blockquote><blockquote>a</blockquote>b</blockquote>] *)
Definition nested_blockquote : Node :=
  elem "blockquote" [elem "blockquote" [Text (lit "a")]; Text (lit "b")].

(** An element with a box in a document that is shown. *)
Definition shown_document : DomDocument :=
  {| hidden := false; scrollWidth := 800; scrollHeights := [600; 20]%Z |}.

Definition exclude_div : Options :=
  {| images := true; links := true; excludeHidden := true;
     exclude := Some ["div"%string] |}.

(** [<img alt="a*b" src="http://e.com/i.png">] *)
Definition img_star : Node :=
  Element "img"
    {| matches := fun _ => Some false; innerText := None;
       alt := Some (lit "a*b"); src := lit "http://e.com/i.png"; href := [];
       value := None;
       offsetWidth := 0; offsetHeight := 0; clientRects := 0;
       boundingClientRect :=
         {| rect_left := 0; rect_right := 0; rect_top := 0; rect_bottom := 0 |};
       attributes := [] |} [].

(** [inserted a b]: [b] is [a] with backslashes put in, each of them
    right before a character of [a] that is one of [# + - = > & .] (or
    before a backslash put in before such a character). *)
Inductive inserted : str -> str -> Prop :=
| inserted_nil : inserted [] []
| inserted_keep (c : char) (a b : str) :
    inserted a b -> inserted (c :: a) (c :: b)
| inserted_add (c : char) (a b : str) :
    char_in c sometimes_escaped = true ->
    inserted (c :: a) b -> inserted (c :: a) (BACKSLASH :: b).

(** One backslash before [c] when it is one of [* _ ~ ` < [ \]. *)
Definition backslash_before_markdown (c : char) : str :=
  if char_in c markdown_characters then [BACKSLASH; c] else [c].

(** The bare string that ends a block of each kind. *)
Definition terminator (block : Block) : str :=
  match block with
  | Pre | Heading _ | Paragraph => [LF; LF]
  | ListItem last _ | DefinitionDescription last =>
      [LF] ++ (if last then [LF] else [])
  | DefinitionTerm => [58%N; LF]
  end.

(** An open list item that is not the last one, with the Span [a]. *)
Definition list_item_a : State :=
  {| content := []; segments := [SpanObj (lit "a")];
     args := ArgsBlock (ListItem false None);
     justAppendedBr := false; inBlockquote := false; groupWithNext := false |}.

(** An open preformatted block with the Span [pre_sample], and one with
    a bare string only. *)
Definition pre_block : State :=
  {| content := lit "x"; segments := [SpanObj pre_sample];
     args := ArgsBlock Pre;
     justAppendedBr := false; inBlockquote := false; groupWithNext := false |}.

Definition pre_blank : State :=
  {| content := lit "x"; segments := [StringLit [LF]; SpanObj [SP]];
     args := ArgsBlock Pre;
     justAppendedBr := false; inBlockquote := false; groupWithNext := false |}.

(** * Properties *)

(** ** White space *)

Lemma drop_while_starts_clean (text : str) :
  starts_clean (drop_while is_space text) = true.
Proof.
  induction text as [|c rest IH]; simpl; auto.
  destruct (is_space c) eqn:E; simpl; auto. now rewrite E.
Qed.

Lemma drop_while_clean (text : str) :
  starts_clean text = true -> drop_while is_space text = text.
Proof.
  destruct text as [|c rest]; simpl; auto.
  destruct (is_space c); simpl; auto; discriminate.
Qed.

Lemma drop_while_suffix (p : char -> bool) (text : str) :
  exists dropped, text = dropped ++ drop_while p text.
Proof.
  induction text as [|c rest [d IH]]; simpl.
  - now exists [].
  - destruct (p c).
    + exists (c :: d). simpl. now f_equal.
    + now exists [].
Qed.

(** [trim] keeps a piece of its argument. *)
Lemma trim_middle (text : str) :
  exists l r, text = l ++ trim text ++ r.
Proof.
  unfold trim.
  destruct (drop_while_suffix is_space text) as [l Hl].
  destruct (drop_while_suffix is_space (rev (drop_while is_space text))) as [r Hr].
  exists l, (rev r).
  rewrite <- rev_app_distr, <- Hr, rev_involutive. exact Hl.
Qed.

Lemma starts_clean_prefix (a b : str) :
  starts_clean (a ++ b) = true -> starts_clean a = true.
Proof. destruct a; simpl; auto. Qed.

Lemma trim_starts_clean (text : str) : starts_clean (trim text) = true.
Proof.
  unfold trim.
  destruct (drop_while_suffix is_space (rev (drop_while is_space text))) as [r Hr].
  apply (f_equal (@rev char)) in Hr.
  rewrite rev_involutive, rev_app_distr in Hr.
  apply starts_clean_prefix with (b := rev r).
  rewrite <- Hr. apply drop_while_starts_clean.
Qed.

Lemma trim_idempotent (text : str) : trim (trim text) = trim text.
Proof.
  pose proof (trim_starts_clean text) as H.
  unfold trim at 1. rewrite (drop_while_clean _ H).
  unfold trim. rewrite rev_involutive.
  now rewrite (drop_while_clean _ (drop_while_starts_clean _)).
Qed.

Lemma single_spaced_weaken (text : str) :
  single_spaced true text = true -> single_spaced false text = true.
Proof.
  destruct text as [|c rest]; simpl; auto.
  destruct (is_space c); simpl; auto; discriminate.
Qed.

Lemma single_spaced_prefix (a b : str) (in_run : bool) :
  single_spaced in_run (a ++ b) = true -> single_spaced in_run a = true.
Proof.
  revert in_run. induction a as [|c rest IH]; simpl; intros in_run H; auto.
  destruct (is_space c); auto.
  apply andb_true_iff in H as [H1 H2]. rewrite H1. simpl. auto.
Qed.

Lemma single_spaced_suffix (a b : str) (in_run : bool) :
  single_spaced in_run (a ++ b) = true -> single_spaced false b = true.
Proof.
  revert in_run. induction a as [|c rest IH]; simpl; intros in_run H.
  - destruct in_run; auto using single_spaced_weaken.
  - destruct (is_space c); eauto.
    apply andb_true_iff in H as [_ H2]. eauto.
Qed.

Lemma collapse_single_spaced (text : str) (in_run : bool) :
  single_spaced in_run (Utils.collapse_from in_run text) = true.
Proof.
  revert in_run. induction text as [|c rest IH]; simpl; intros in_run; auto.
  destruct (is_space c) eqn:E.
  - destruct in_run; auto. simpl. now rewrite IH.
  - simpl. now rewrite E.
Qed.

Lemma collapse_fixed (text : str) (in_run : bool) :
  single_spaced in_run text = true -> Utils.collapse_from in_run text = text.
Proof.
  revert in_run. induction text as [|c rest IH]; simpl; intros in_run H; auto.
  destruct (is_space c).
  - apply andb_true_iff in H as [H1 H2]. apply andb_true_iff in H1 as [H0 H1].
    apply N.eqb_eq in H1. destruct in_run; [discriminate|].
    subst c. f_equal. auto.
  - f_equal. auto.
Qed.

Lemma single_spaced_no_run (text : str) (in_run : bool) :
  single_spaced in_run text = true -> has_space_run text = false.
Proof.
  revert in_run. induction text as [|c rest IH]; intros in_run H; auto.
  destruct rest as [|c' rest']; auto.
  change (has_space_run (c :: c' :: rest'))
    with (is_space c && is_space c' || has_space_run (c' :: rest')).
  change (single_spaced in_run (c :: c' :: rest'))
    with (if is_space c
          then negb in_run && (c =? SP)%N && single_spaced true (c' :: rest')
          else single_spaced false (c' :: rest')) in H.
  destruct (is_space c) eqn:E.
  - apply andb_true_iff in H as [_ H2].
    rewrite (IH _ H2). simpl in H2.
    destruct (is_space c'); try discriminate; auto.
  - simpl. eauto.
Qed.

Lemma normalise_single_spaced (text : str) :
  single_spaced false (Utils.normalise text) = true.
Proof.
  unfold Utils.normalise, Utils.collapse.
  pose proof (collapse_single_spaced text false) as H.
  destruct (trim_middle (Utils.collapse_from false text)) as (l & r & Heq).
  rewrite Heq in H.
  apply single_spaced_suffix in H. now apply single_spaced_prefix in H.
Qed.

(** C7: [normalise] is idempotent, and its result has no two white-space
    characters side by side. *)
Theorem normalise_idempotent_no_space_run (T : str) :
  Utils.normalise (Utils.normalise T) = Utils.normalise T
  /\ has_space_run (Utils.normalise T) = false.
Proof.
  split.
  - pose proof (normalise_single_spaced T) as H.
    unfold Utils.normalise at 1. unfold Utils.collapse.
    rewrite (collapse_fixed _ _ H).
    unfold Utils.normalise. apply trim_idempotent.
  - apply single_spaced_no_run with (in_run := false).
    apply normalise_single_spaced.
Qed.

(** ** Escaping *)

Lemma span_while_app (p : char -> bool) (text : str) :
  fst (span_while p text) ++ snd (span_while p text) = text.
Proof.
  induction text as [|c rest IH]; simpl; auto.
  destruct (p c); simpl; auto.
  destruct (span_while p rest); simpl in *. now f_equal.
Qed.

Lemma span_while_rest_In (p : char -> bool) (text : str) (c : char) :
  In c (snd (span_while p text)) -> In c text.
Proof.
  intros H. rewrite <- (span_while_app p text). apply in_or_app. now right.
Qed.

Section Untouched.

Variable text : str.
Hypothesis plain :
  forallb (fun c => negb (char_in c sometimes_escaped)) text = true.

Lemma plain_In (c : char) : In c text -> char_in c sometimes_escaped = false.
Proof.
  intros H. rewrite forallb_forall in plain.
  apply plain in H. now apply negb_true_iff in H.
Qed.

Lemma block_start_untouched : Utils.escape_block_start text = text.
Proof.
  unfold Utils.escape_block_start.
  pose proof (span_while_rest_In is_space text) as Hin.
  destruct (span_while is_space text) as [ws rest]. simpl in Hin.
  destruct rest as [|c rest']; auto.
  assert (H : char_in c sometimes_escaped = false)
    by (apply plain_In, Hin; now left).
  replace (char_in c Utils.block_start) with false; auto.
  symmetry. revert H. unfold char_in, sometimes_escaped, Utils.block_start.
  simpl. intros H. repeat (apply orb_false_iff in H as [? H]).
  repeat (apply orb_false_iff; split); auto.
Qed.

Lemma ordinal_untouched : Utils.escape_ordinal text = text.
Proof.
  unfold Utils.escape_ordinal.
  pose proof (span_while_rest_In is_space text) as Hin.
  destruct (span_while is_space text) as [ws rest]. simpl in Hin.
  pose proof (span_while_rest_In is_digit rest) as Hin'.
  destruct (span_while is_digit rest) as [digits rest']. simpl in Hin'.
  destruct digits as [|d0 digits]; auto.
  destruct rest' as [|d [|s tail]]; auto.
  assert (H : char_in d sometimes_escaped = false)
    by (apply plain_In, Hin, Hin'; now left).
  replace (d =? Utils.DOT)%N with false; auto.
  symmetry. revert H. unfold char_in, sometimes_escaped. simpl.
  intros H. repeat (apply orb_false_iff in H as [? H]). auto.
Qed.

End Untouched.

Lemma entities_untouched (text : str) :
  forallb (fun c => negb (char_in c sometimes_escaped)) text = true ->
  Utils.escape_entities text = text.
Proof.
  unfold Utils.escape_entities.
  induction text as [|c rest IH]; simpl; auto.
  intros H. apply andb_true_iff in H as [Hc Hrest].
  replace (c =? Utils.AMP)%N with false; [simpl; f_equal; auto|].
  symmetry. apply negb_true_iff in Hc. revert Hc.
  unfold char_in, sometimes_escaped. simpl.
  intros H. repeat (apply orb_false_iff in H as [? H]). auto.
Qed.

Lemma escape_always_plain (text : str) :
  forallb (fun c => negb (char_in c sometimes_escaped)) text = true ->
  forallb (fun c => negb (char_in c sometimes_escaped))
          (Utils.escape_always text) = true.
Proof.
  unfold Utils.escape_always.
  induction text as [|c rest IH]; simpl; auto.
  intros H. apply andb_true_iff in H as [Hc Hrest].
  change (forallb (fun c => negb (char_in c sometimes_escaped))
            (Utils.escape_char c ++ flat_map Utils.escape_char rest) = true).
  rewrite forallb_app, (IH Hrest), andb_true_r.
  unfold Utils.escape_char.
  destruct (char_in c Utils.always_escaped); simpl; now rewrite Hc.
Qed.

Lemma markdown_characters_always (c : char) :
  char_in c markdown_characters = char_in c Utils.always_escaped.
Proof.
  unfold char_in, Utils.always_escaped.
  change markdown_characters with [92; 42; 95; 126; 96; 60; 91]%N.
  cbn [existsb].
  repeat match goal with
         | |- context [(c =? ?k)%N] => destruct (c =? k)%N
         end; reflexivity.
Qed.

Lemma inserted_refl (a : str) : inserted a a.
Proof. induction a; constructor; auto. Qed.

Lemma inserted_trans (b c : str) :
  inserted b c -> forall a, inserted a b -> inserted a c.
Proof.
  induction 1 as [|x b c Hbc IH|y b c Hy Hbc IH]; intros a Hab.
  - exact Hab.
  - inversion Hab; subst.
    + apply inserted_keep. now apply IH.
    + apply inserted_add; auto.
  - inversion Hab; subst.
    + apply inserted_add; auto.
    + apply inserted_add; auto.
Qed.

Lemma inserted_app (prefix a b : str) :
  inserted a b -> inserted (prefix ++ a) (prefix ++ b).
Proof. intros H. induction prefix; simpl; auto using inserted_keep. Qed.

Lemma inserted_block_start (text : str) :
  inserted text (Utils.escape_block_start text).
Proof.
  unfold Utils.escape_block_start.
  pose proof (span_while_app is_space text) as H.
  destruct (span_while is_space text) as [ws rest]. simpl in H.
  destruct rest as [|c rest']; [apply inserted_refl|].
  destruct (char_in c Utils.block_start) eqn:E; [|apply inserted_refl].
  rewrite <- H. apply inserted_app. apply inserted_add; [|apply inserted_refl].
  revert E. unfold char_in, Utils.block_start, sometimes_escaped. simpl.
  intros E. repeat (apply orb_true_iff in E as [E|E]); try discriminate;
    rewrite E; now rewrite ?orb_true_r.
Qed.

Lemma inserted_entities (text : str) (in_match : bool) :
  inserted text (Utils.escape_entities_from in_match text).
Proof.
  revert in_match. induction text as [|c rest IH]; intros in_match; simpl.
  - constructor.
  - destruct in_match; [now apply inserted_keep|].
    destruct ((c =? Utils.AMP)%N && Utils.semicolon_on_line rest) eqn:E.
    + apply andb_true_iff in E as [E _]. apply N.eqb_eq in E. subst c.
      apply inserted_add; [reflexivity|]. now apply inserted_keep.
    + now apply inserted_keep.
Qed.

Lemma inserted_ordinal (text : str) :
  inserted text (Utils.escape_ordinal text).
Proof.
  unfold Utils.escape_ordinal.
  pose proof (span_while_app is_space text) as H.
  destruct (span_while is_space text) as [ws rest]. simpl in H.
  pose proof (span_while_app is_digit rest) as H'.
  destruct (span_while is_digit rest) as [digits rest']. simpl in H'.
  destruct digits as [|d0 digits]; [apply inserted_refl|].
  destruct rest' as [|d [|s tail]]; try apply inserted_refl.
  destruct ((d =? Utils.DOT)%N && (s =? SP)%N) eqn:E; [|apply inserted_refl].
  apply andb_true_iff in E as [E _]. apply N.eqb_eq in E. subst d.
  rewrite <- H, <- H'. apply inserted_app. apply inserted_app.
  apply inserted_add; [reflexivity|apply inserted_refl].
Qed.

Lemma escape_always_markdown (text : str) :
  Utils.escape_always text = flat_map backslash_before_markdown text.
Proof.
  unfold Utils.escape_always. apply flat_map_ext. intros c.
  unfold Utils.escape_char, backslash_before_markdown.
  now rewrite markdown_characters_always.
Qed.

(** C2: for every string, [escape] puts one backslash before each of the
    characters [* _ ~ ` < [ \], wherever it stands, and besides that only
    puts backslashes right before characters [# + - = > & .]; on a string
    made of the former and of characters without Markdown meaning it does
    nothing else than the first. *)
Theorem escape_prepends_one_backslash (text : str) :
  inserted (flat_map backslash_before_markdown text) (Utils.escape text)
  /\ (forallb (fun c => char_in c markdown_characters || no_markdown_meaning c)
              text = true ->
      Utils.escape text = flat_map backslash_before_markdown text).
Proof.
  split.
  - unfold Utils.escape. rewrite <- escape_always_markdown.
    eapply inserted_trans; [apply inserted_ordinal|].
    eapply inserted_trans; [apply inserted_entities|].
    apply inserted_block_start.
  - intros H.
    assert (P : forallb (fun c => negb (char_in c sometimes_escaped)) text = true).
    { rewrite forallb_forall in *. intros c Hc. specialize (H c Hc).
      unfold no_markdown_meaning in H.
      destruct (char_in c sometimes_escaped) eqn:E; auto.
      rewrite andb_false_r, orb_false_r in H.
      revert E H. unfold char_in, sometimes_escaped.
      change markdown_characters with [92; 42; 95; 126; 96; 60; 91]%N. simpl.
      intros E. repeat (apply orb_true_iff in E as [E|E]);
        try discriminate; apply N.eqb_eq in E; subst c; discriminate. }
    apply escape_always_plain in P.
    unfold Utils.escape. fold (Utils.escape_always text).
    rewrite (block_start_untouched _ P), (entities_untouched _ P).
    rewrite (ordinal_untouched _ P). apply escape_always_markdown.
Qed.

Lemma escape_prepends_one_backslash_witness :
  forallb (fun c => char_in c markdown_characters || no_markdown_meaning c)
          (lit "2*3 _a_ ~b~ `c` <d [e] f\g") = true
  /\ Utils.escape (lit "2*3 _a_ ~b~ `c` <d [e] f\g")
     = lit "2\*3 \_a\_ \~b\~ \`c\` \<d \[e] f\\g"
  /\ inserted (lit "a\*b.") (Utils.escape (lit "a*b.")).
Proof.
  split; [reflexivity|]. split.
  - rewrite (proj2 (escape_prepends_one_backslash
                      (lit "2*3 _a_ ~b~ `c` <d [e] f\g")) eq_refl).
    reflexivity.
  - apply (proj1 (escape_prepends_one_backslash (lit "a*b."))).
Defined.

(** Ordinary prose: the characters escaped everywhere and those escaped
    in some places, together. *)
Example escape_prose :
  Utils.escape (lit "a*b.") = lit "a\*b."
  /\ Utils.escape (lit "1. R&D; is *fun* - see [x]")
     = lit "1\. R\&D; is \*fun\* - see \[x]"
  /\ Utils.escape (lit "# a_b") = lit "\# a\_b".
Proof. repeat split; reflexivity. Qed.

(** ** The Stringifier *)

Lemma join_nil_concat (pieces : list str) : join [] pieces = List.concat pieces.
Proof.
  induction pieces as [|p [|q rest] IH]; simpl; auto.
  - now rewrite app_nil_r.
  - simpl in IH. now rewrite IH.
Qed.

Lemma chunk_loop_runs (segments : list Segment) :
  forall chunks t s current,
    Stringifier.chunk_loop (map Some segments ++ [None]) chunks (Some t)
                           (s :: current)
    = Some (chunks ++ runs t (s :: current) segments).
Proof.
  induction segments as [|x rest IH]; intros chunks t s current; simpl.
  - reflexivity.
  - destruct (TypeName_eqb (constructor_name x) t); simpl.
    + apply (IH chunks t s (current ++ [x])).
    + rewrite (IH _ (constructor_name x) x []).
      now rewrite <- app_assoc.
Qed.

(** [chunkUpSegments] yields the runs, and throws on an empty array. *)
Lemma chunkUpSegments_runs (s : Segment) (segments : list Segment) :
  Stringifier.chunkUpSegments (s :: segments)
  = Some (runs (constructor_name s) [s] segments).
Proof.
  unfold Stringifier.chunkUpSegments. simpl.
  apply (chunk_loop_runs segments [] (constructor_name s) s []).
Qed.

Lemma chunkUpSegments_empty : Stringifier.chunkUpSegments [] = None.
Proof. reflexivity. Qed.

Lemma stringify_runs (s : Segment) (segments : list Segment) :
  Stringifier.stringify (s :: segments)
  = Some (List.concat (map Stringifier.render_chunk
                      (runs (constructor_name s) [s] segments))).
Proof.
  unfold Stringifier.stringify.
  now rewrite chunkUpSegments_runs, join_nil_concat.
Qed.

Lemma stringify_defined (segments : list Segment) :
  segments <> [] -> Stringifier.stringify segments <> None.
Proof.
  destruct segments as [|s rest]; [congruence|].
  intros _. now rewrite stringify_runs.
Qed.

Lemma runs_strings (segments : list Segment) :
  forall current,
    forallb (fun s => TypeName_eqb (constructor_name s) TString) segments = true ->
    runs TString current segments = [(Some TString, current ++ segments)].
Proof.
  induction segments as [|x rest IH]; intros current H; simpl in *.
  - now rewrite app_nil_r.
  - apply andb_true_iff in H as [Hx Hrest].
    rewrite Hx, (IH _ Hrest). now rewrite <- app_assoc.
Qed.

(** ** Splitting into paragraphs *)

Lemma split_loop_false_step (current : str) (c : char) (rest : str) :
  split_loop false current (c :: rest)
  = match rest with
    | c' :: _ =>
        if (c =? LF)%N && (c' =? LF)%N
        then rev current :: split_loop true [] rest
        else split_loop false (c :: current) rest
    | [] => split_loop false (c :: current) rest
    end.
Proof. reflexivity. Qed.

(** A text without a blank line is one paragraph. *)
Lemma split_loop_no_blank_line (text : str) (current : str) :
  has_blank_line text = false ->
  split_loop false current text = [rev current ++ text].
Proof.
  revert current. induction text as [|c rest IH]; intros current H.
  - simpl. now rewrite app_nil_r.
  - rewrite split_loop_false_step.
    assert (Hrest : has_blank_line rest = false).
    { destruct rest as [|c' rest']; auto.
      change (has_blank_line (c :: c' :: rest'))
        with ((c =? LF)%N && (c' =? LF)%N || has_blank_line (c' :: rest')) in H.
      now apply orb_false_iff in H as [_ H]. }
    assert (Hpush : split_loop false (c :: current) rest
                    = [rev current ++ c :: rest]).
    { rewrite (IH _ Hrest). simpl. now rewrite <- app_assoc. }
    destruct rest as [|c' rest']; auto.
    change (has_blank_line (c :: c' :: rest'))
      with ((c =? LF)%N && (c' =? LF)%N || has_blank_line (c' :: rest')) in H.
    apply orb_false_iff in H as [H _]. now rewrite H.
Qed.

Lemma split_loop_separator (n : nat) (text : str) :
  starts_with_LF text = false ->
  split_loop true [] (repeat LF n ++ text) = split_loop false [] text.
Proof.
  intros H. induction n as [|n IH]; simpl; auto.
  destruct text as [|c rest]; auto.
  simpl in H. simpl. now rewrite H.
Qed.

(** A run of two line feeds or more, between a paragraph that does not
    end with a line feed and a text that does not begin with one, is one
    separator. *)
Lemma split_loop_paragraph (n : nat) (text : str) (paragraph : str) :
  starts_with_LF text = false ->
  forall current,
    has_blank_line paragraph = false ->
    last paragraph SP <> LF ->
    split_loop false current (paragraph ++ LF :: LF :: repeat LF n ++ text)
    = (rev current ++ paragraph) :: split_loop false [] text.
Proof.
  intros Ht. induction paragraph as [|c rest IH]; intros current Hb Hl.
  - cbn [app]. rewrite split_loop_false_step. simpl.
    rewrite app_nil_r. f_equal.
    apply (@split_loop_separator (S n) text Ht).
  - cbn [app]. rewrite split_loop_false_step.
    destruct rest as [|c' rest'].
    + cbn [app].
      replace (c =? LF)%N with false
        by (symmetry; apply N.eqb_neq; exact Hl).
      cbn [andb].
      assert (E := IH (c :: current) eq_refl).
      cbn [app last] in E. rewrite E by discriminate.
      simpl. now rewrite app_nil_r.
    + change (has_blank_line (c :: c' :: rest'))
        with ((c =? LF)%N && (c' =? LF)%N || has_blank_line (c' :: rest')) in Hb.
      apply orb_false_iff in Hb as [Hb1 Hb2].
      cbn [app]. rewrite Hb1.
      assert (E := IH (c :: current) Hb2).
      cbn [app] in E. rewrite E by exact Hl.
      simpl. now rewrite <- app_assoc.
Qed.

Lemma split_paragraphs_one (text : str) :
  has_blank_line text = false -> split_paragraphs text = [text].
Proof. apply (@split_loop_no_blank_line text []). Qed.

(** X16: [split(/\n{2,}/g)] cuts a paragraph off at a run of two line
    feeds or more: when the paragraph has no blank line and does not end
    with a line feed, and the text after the run does not begin with one,
    the pieces are the paragraph and the pieces of that text. *)
Lemma split_paragraphs_cons (n : nat) (paragraph text : str) :
  has_blank_line paragraph = false ->
  last paragraph SP <> LF ->
  starts_with_LF text = false ->
  split_paragraphs (paragraph ++ LF :: LF :: repeat LF n ++ text)
  = paragraph :: split_paragraphs text.
Proof.
  intros Hb Hl Ht. now apply (@split_loop_paragraph n text paragraph Ht []).
Qed.

Example split_paragraphs_sample :
  split_paragraphs (lit "a" ++ [LF; LF; LF] ++ lit "b" ++ [LF] ++ lit "c"
                      ++ [LF; LF])
  = [lit "a"; lit "b" ++ [LF] ++ lit "c"; []].
Proof. reflexivity. Qed.

(** ** Preformatted blocks *)

Lemma filter_space_drop_while (text : str) :
  filter (fun c => negb (is_space c)) (drop_while is_space text)
  = filter (fun c => negb (is_space c)) text.
Proof.
  induction text as [|c rest IH]; simpl; auto.
  destruct (is_space c) eqn:E; simpl; auto. now rewrite E.
Qed.

Lemma filter_space_trim (text : str) :
  filter (fun c => negb (is_space c)) (trim text)
  = filter (fun c => negb (is_space c)) text.
Proof.
  unfold trim.
  rewrite filter_rev, filter_space_drop_while, <- filter_rev, rev_involutive.
  apply filter_space_drop_while.
Qed.

Lemma filter_space_collapse (text : str) (in_run : bool) :
  filter (fun c => negb (is_space c)) (Utils.collapse_from in_run text)
  = filter (fun c => negb (is_space c)) text.
Proof.
  revert in_run. induction text as [|c rest IH]; simpl; intros in_run; auto.
  destruct (is_space c) eqn:E; simpl.
  - destruct in_run; simpl; auto.
  - rewrite E. simpl. now f_equal.
Qed.

(** [normalise] changes white space only. *)
Lemma filter_space_normalise (text : str) :
  filter (fun c => negb (is_space c)) (Utils.normalise text)
  = filter (fun c => negb (is_space c)) text.
Proof.
  unfold Utils.normalise, Utils.collapse.
  now rewrite filter_space_trim, filter_space_collapse.
Qed.

Lemma isPresent_filter (text : str) :
  Utils.isPresent text
  = negb (is_empty (filter (fun c => negb (is_space c)) text)).
Proof.
  unfold Utils.isPresent.
  induction text as [|c rest IH]; simpl; auto.
  destruct (is_space c); simpl; auto.
  destruct rest; simpl in *; auto.
Qed.

(** A normalised text is present as soon as it is not empty. *)
Lemma isPresent_normalise (text : str) :
  Utils.isPresent (Utils.normalise text) = negb (is_empty (Utils.normalise text)).
Proof.
  pose proof (trim_starts_clean (Utils.collapse text)) as H.
  fold (Utils.normalise text) in H.
  unfold Utils.isPresent.
  destruct (Utils.normalise text) as [|c rest]; simpl in *; auto.
  apply negb_true_iff in H. now rewrite H.
Qed.

Lemma Pre_loop_filter (nodes : list str) (result : list str) :
  Pre_loop nodes result
  = result ++ filter (fun p => negb (is_empty p)) (map Utils.normalise nodes).
Proof.
  revert result. induction nodes as [|node rest IH]; intros result; simpl.
  - now rewrite app_nil_r.
  - rewrite isPresent_normalise.
    destruct (negb (is_empty (Utils.normalise node))); rewrite IH; auto.
    now rewrite <- app_assoc.
Qed.

Lemma split_loop_keeps (c : char) (text : str) :
  (c =? LF)%N = false ->
  forall in_separator current,
    In c (rev current ++ text) ->
    exists piece, In piece (split_loop in_separator current text) /\ In c piece.
Proof.
  intros Hc. induction text as [|x rest IH]; intros in_separator current H.
  - rewrite app_nil_r in H. exists (rev current). simpl. auto.
  - assert (Hpush : In c (rev (x :: current) ++ rest))
      by (simpl; now rewrite <- app_assoc).
    simpl. destruct (in_separator && (x =? LF)%N) eqn:E.
    + apply andb_true_iff in E as [_ E]. apply N.eqb_eq in E. subst x.
      apply IH. apply in_app_or in H as [H|[H|H]]; apply in_or_app; auto.
      subst c. discriminate.
    + destruct rest as [|x' rest']; [now apply IH|].
      destruct ((x =? LF)%N && (x' =? LF)%N) eqn:E'; [|now apply IH].
      apply andb_true_iff in E' as [E' _]. apply N.eqb_eq in E'. subst x.
      apply in_app_or in H as [H|[H|H]].
      * exists (rev current). simpl. auto.
      * subst c. discriminate.
      * destruct (IH true [] H) as (piece & Hin & Hp).
        exists piece. simpl. auto.
Qed.

Lemma join_segments_In (text : str) (segments : list Segment) (c : char) :
  In (SpanObj text) segments -> In c text -> In c (join_segments segments).
Proof.
  unfold join_segments. rewrite join_nil_concat.
  intros Hs Hc. apply in_concat. exists text. split; auto.
  apply (in_map toString) in Hs. exact Hs.
Qed.

Lemma isPresent_witness (text : str) :
  Utils.isPresent text = true -> exists c, In c text /\ is_space c = false.
Proof.
  rewrite isPresent_filter. intros H.
  destruct (filter _ text) as [|c rest] eqn:E; [discriminate|].
  assert (Hin : In c (filter (fun c => negb (is_space c)) text))
    by (rewrite E; now left).
  apply filter_In in Hin as [Hin Hc]. exists c. split; auto.
  now apply negb_true_iff.
Qed.

Lemma present_has_char (text : str) (c : char) :
  In c text -> is_space c = false -> Utils.isPresent text = true.
Proof.
  intros Hin Hc. rewrite isPresent_filter.
  assert (H : In c (filter (fun c => negb (is_space c)) text))
    by (apply filter_In; split; auto; now rewrite Hc).
  now destruct (filter _ text).
Qed.

(** ** Document *)

Lemma Document_isPresent_iff (st : State) :
  Document.isPresent st = true
  <-> exists text, In (SpanObj text) (segments st) /\ Utils.isPresent text = true.
Proof.
  unfold Document.isPresent. rewrite existsb_exists. split.
  - intros ([text|s] & Hin & H); simpl in H; [eauto|discriminate].
  - intros (text & Hin & H). exists (SpanObj text). auto.
Qed.

(** A buffer that is present never makes an empty block. *)
Lemma present_toArray_nonempty (st : State) (block : Block) :
  Document.isPresent st = true -> toArray block (segments st) <> [].
Proof.
  intros H.
  destruct block; simpl;
    unfold Heading_toArray, ListItem_toArray, DefinitionTerm_toArray,
      DefinitionDescription_toArray, Paragraph_toArray;
    try (simpl; discriminate);
    try (intros E; apply app_eq_nil in E as [_ E]; discriminate).
  apply Document_isPresent_iff in H as (text & Hin & Ht).
  apply isPresent_witness in Ht as (c & Hc & Hs).
  assert (Hlf : (c =? LF)%N = false).
  { destruct (c =? LF)%N eqn:E; auto. apply N.eqb_eq in E. now subst c. }
  destruct (split_loop_keeps c (join_segments (segments st)) Hlf false [])
    as (piece & Hp & Hcp).
  { simpl. eapply join_segments_In; eauto. }
  unfold Pre_toArray. rewrite Pre_loop_filter. simpl.
  assert (Hn : In (Utils.normalise piece)
                  (filter (fun p => negb (is_empty p))
                          (map Utils.normalise (split_paragraphs (join_segments (segments st)))))).
  { apply filter_In. split; [now apply in_map|].
    rewrite <- isPresent_normalise. apply present_has_char with (c := c); auto.
    assert (Hf : In c (filter (fun c => negb (is_space c)) (Utils.normalise piece))).
    { rewrite filter_space_normalise. apply filter_In. now rewrite Hs. }
    now apply filter_In in Hf. }
  destruct (filter _ _); [contradiction|discriminate].
Qed.

Lemma finish_present (st : State) (block : Block) :
  args st = ArgsBlock block ->
  Document.isPresent st = true ->
  exists rendered,
    Stringifier.stringify (toArray block (segments st)) = Some rendered
    /\ Document.finish st = Some (finished st rendered).
Proof.
  intros Ha Hp.
  destruct (Stringifier.stringify (toArray block (segments st))) as [rendered|] eqn:E.
  - exists rendered. split; auto.
    unfold Document.finish, Document.blockContent, finished, blockquote_prefix.
    rewrite Hp. simpl.
    destruct st as [c s a j q g]; simpl in *. subst a.
    destruct q; simpl; rewrite E; simpl; unfold set_content, set_args; simpl;
      now rewrite <- ?app_assoc, ?app_nil_l.
  - exfalso. revert E. apply stringify_defined.
    now apply present_toArray_nonempty.
Qed.

Lemma finish_absent (st : State) :
  Document.isPresent st = false -> Document.finish st = Some st.
Proof. intros H. unfold Document.finish. now rewrite H. Qed.

Lemma blank_spans_absent (st : State) :
  forallb blank_span (segments st) = true -> Document.isPresent st = false.
Proof.
  unfold Document.isPresent.
  induction (segments st) as [|seg rest IH]; simpl; auto.
  intros H. apply andb_true_iff in H as [H1 H2]. rewrite (IH H2).
  destruct seg; simpl in *; [|discriminate].
  apply negb_true_iff in H1. now rewrite H1.
Qed.

(** C5: [finish] leaves the state, and so the output, as it is when the
    open buffer holds no Span with content, as when it holds blank Spans
    only, after which [break] discards the buffer; when the buffer is
    present [finish] appends the rendered block, after ["> "] exactly
    inside a blockquote. *)
Theorem finish_frame (st : State) :
  ((forall text, In (SpanObj text) (segments st) -> Utils.isPresent text = false)
   -> Document.finish st = Some st)
  /\ (forallb blank_span (segments st) = true ->
      forall block,
        Document.break block st
        = Some (set_args (ArgsBlock block) (set_segments [] st)))
  /\ (forall block,
        args st = ArgsBlock block ->
        (exists text, In (SpanObj text) (segments st)
                      /\ Utils.isPresent text = true) ->
        exists rendered,
          Stringifier.stringify (toArray block (segments st)) = Some rendered
          /\ Document.finish st
             = Some (set_args ArgsSpent
                       (set_content
                          (content st
                             ++ (if inBlockquote st then lit "> " else [])
                             ++ rendered) st))).
Proof.
  split; [|split].
  - intros H. apply finish_absent.
    destruct (Document.isPresent st) eqn:E; auto.
    apply Document_isPresent_iff in E as (text & Hin & Ht).
    rewrite (H text Hin) in Ht. discriminate.
  - intros H block. unfold Document.break, seq.
    now rewrite (finish_absent _ (blank_spans_absent _ H)).
  - intros block Ha Hp. apply Document_isPresent_iff in Hp.
    apply (finish_present _ Ha Hp).
Qed.

Lemma join_segments_app (a b : list Segment) :
  join_segments (a ++ b) = join_segments a ++ join_segments b.
Proof.
  unfold join_segments. now rewrite !join_nil_concat, map_app, concat_app.
Qed.

(** A block that ends with a bare string is rendered with that string at
    its end. *)
Lemma runs_trailing_literal (s : str) (segments : list Segment) :
  forall t current,
    exists text,
      List.concat (map Stringifier.render_chunk
                       (runs t current (segments ++ [StringLit s])))
      = text ++ s.
Proof.
  induction segments as [|x rest IH]; intros t current; simpl.
  - destruct t; simpl.
    + exists (Utils.normalise (join_segments current)).
      unfold Stringifier.render_chunk at 2. simpl. unfold join_segments. simpl.
      now rewrite app_nil_r.
    + exists (join_segments current).
      unfold Stringifier.render_chunk. simpl.
      rewrite join_segments_app, app_nil_r. reflexivity.
  - destruct (TypeName_eqb (constructor_name x) t).
    + apply IH.
    + destruct (IH (constructor_name x) [x]) as [text H].
      exists (Stringifier.render_chunk (Some t, current) ++ text).
      simpl. rewrite H. now rewrite app_assoc.
Qed.

Lemma stringify_trailing_literal (s : str) (segments : list Segment) :
  exists text,
    Stringifier.stringify (segments ++ [StringLit s]) = Some (text ++ s).
Proof.
  destruct segments as [|x rest].
  - exists []. reflexivity.
  - simpl. rewrite stringify_runs.
    destruct (runs_trailing_literal s rest (constructor_name x) [x]) as [text H].
    exists text. now rewrite H.
Qed.

(** Closing a paragraph that is present appends a text that ends with a
    blank line. *)
Lemma break_paragraph_present (st : State) (block : Block) :
  args st = ArgsBlock Paragraph ->
  Document.isPresent st = true ->
  exists text,
    Document.break block st
    = Some {| content := content st ++ blockquote_prefix st ++ text ++ [LF; LF];
              segments := [];
              args := ArgsBlock block;
              justAppendedBr := justAppendedBr st;
              inBlockquote := inBlockquote st;
              groupWithNext := groupWithNext st |}.
Proof.
  intros Ha Hp.
  destruct (finish_present _ Ha Hp) as (rendered & Hr & Hf).
  destruct (stringify_trailing_literal [LF; LF] (segments st)) as [text Ht].
  simpl in Hr. unfold Paragraph_toArray in Hr. rewrite Ht in Hr.
  injection Hr as <-. exists text.
  unfold Document.break, seq. rewrite Hf. reflexivity.
Qed.

(** Spans side by side make one run, which a bare string ends. *)
Lemma runs_spans_literal (texts : list str) (l : str) :
  forall current,
    runs TSpan current (map SpanObj texts ++ [StringLit l])
    = [(Some TSpan, current ++ map SpanObj texts); (Some TString, [StringLit l])].
Proof.
  induction texts as [|t rest IH]; intros current; simpl.
  - now rewrite app_nil_r.
  - rewrite IH. now rewrite <- app_assoc.
Qed.

Lemma join_segments_spans (texts : list str) :
  join_segments (map SpanObj texts) = List.concat texts.
Proof.
  unfold join_segments. rewrite join_nil_concat, map_map. simpl.
  now rewrite map_id.
Qed.

Lemma normalise_empty : Utils.normalise [] = [].
Proof. reflexivity. Qed.

(** The text of a list item whose children are Spans. *)
Lemma ListItem_rendering (texts : list str) (last : bool) (index : option nat) :
  Stringifier.stringify (toArray (ListItem last index) (map SpanObj texts))
  = Some (ListItem_prefix index ++ Utils.normalise (List.concat texts)
            ++ [LF] ++ (if last then [LF] else [])).
Proof.
  unfold toArray, ListItem_toArray.
  change ([StringLit (ListItem_prefix index)] ++ map SpanObj texts ++ ?l)
    with (StringLit (ListItem_prefix index) :: (map SpanObj texts ++ l)).
  rewrite stringify_runs. f_equal.
  destruct texts as [|t rest]; simpl.
  - unfold Stringifier.render_chunk, join_segments. simpl.
    now rewrite !app_nil_r.
  - rewrite (runs_spans_literal rest _ [SpanObj t]). simpl.
    unfold Stringifier.render_chunk. simpl.
    change (SpanObj t :: map SpanObj rest) with (map SpanObj (t :: rest)).
    rewrite join_segments_spans. unfold join_segments. simpl.
    now rewrite !app_nil_r.
Qed.

Lemma stringify_spans_literal (texts : list str) (l : str) :
  Stringifier.stringify (map SpanObj texts ++ [StringLit l])
  = Some (Utils.normalise (List.concat texts) ++ l).
Proof.
  destruct texts as [|t rest].
  - reflexivity.
  - simpl. rewrite stringify_runs. simpl constructor_name.
    rewrite (runs_spans_literal rest l [SpanObj t]). simpl.
    unfold Stringifier.render_chunk. simpl.
    change (SpanObj t :: map SpanObj rest) with (map SpanObj (t :: rest)).
    rewrite join_segments_spans. unfold join_segments. simpl.
    now rewrite !app_nil_r.
Qed.

(** What a block gives ends with the bare string of its kind. *)
Lemma toArray_terminator (block : Block) (segments : list Segment) :
  toArray block segments = []
  \/ exists init s,
       toArray block segments = init ++ [StringLit (s ++ terminator block)].
Proof.
  destruct block; simpl.
  - unfold Pre_toArray. destruct (Pre_loop _ _) as [|p ps]; [now left|right].
    now exists [], (join [LF; LF] (p :: ps)).
  - right. now exists (StringLit (heading_marks level ++ [SP]) :: segments), [].
  - right. now exists (StringLit (ListItem_prefix index) :: segments), [].
  - right. now exists segments, [].
  - right. now exists segments, [].
  - right. now exists segments, [].
Qed.

(** Closing a block that is present appends a text that ends with the
    bare string of its kind. *)
Lemma break_present (st : State) (block next : Block) :
  args st = ArgsBlock block ->
  Document.isPresent st = true ->
  exists text,
    Document.break next st
    = Some {| content :=
                content st ++ blockquote_prefix st ++ text ++ terminator block;
              segments := [];
              args := ArgsBlock next;
              justAppendedBr := justAppendedBr st;
              inBlockquote := inBlockquote st;
              groupWithNext := groupWithNext st |}.
Proof.
  intros Ha Hp.
  destruct (finish_present _ Ha Hp) as (rendered & Hr & Hf).
  destruct (toArray_terminator block (segments st)) as [E|(init & s0 & E)].
  - exfalso. now apply (present_toArray_nonempty st block Hp).
  - rewrite E in Hr.
    destruct (stringify_trailing_literal (s0 ++ terminator block) init)
      as [text Ht].
    rewrite Ht in Hr. injection Hr as <-.
    exists (text ++ s0).
    unfold Document.break, seq. rewrite Hf. unfold finished. simpl.
    now rewrite <- !app_assoc.
Qed.

(** ** The traversal *)

Section Traversal.

Variable options : Options.
Variable textProperty : TextProperty.
Variable domDocument : DomDocument.

Local Abbreviation process := (process options textProperty domDocument).
Local Abbreviation process_each := (process_each options textProperty domDocument).
Local Abbreviation processChildren :=
  (processChildren options textProperty domDocument).
Local Abbreviation skipped := (skipped options domDocument).

(** [process] is its body applied to [processChildren]. *)
Lemma process_unfold (node : Node) (ctx : Context) :
  process node ctx
  = process_node options textProperty domDocument node ctx (processChildren node).
Proof.
  destruct node as [name p children| |]; try reflexivity.
  simpl. f_equal.
  generalize (@nil Node) as done.
  induction children as [|child rest IH]; intros done; simpl; auto.
  now rewrite IH.
Qed.

Lemma name_eqb_false (name other : string) :
  name <> other -> (name =? other)%string = false.
Proof. intros H. now apply String.eqb_neq. Qed.

(** A node other than a line break is handled after the pending line
    break, if there is one, has been pushed. *)
Lemma process_flush (node : Node) (ctx : Context) (st : State) :
  skipped node = Some false ->
  nodeName_lower node <> "br"%string ->
  process node ctx st
  = dispatch options textProperty node ctx (processChildren node)
      (flush_line_break st).
Proof.
  intros Hs Hn. rewrite process_unfold. unfold process_node, line_break_step.
  rewrite Hs, (name_eqb_false Hn). unfold flush_line_break.
  now destruct (justAppendedBr st).
Qed.

Lemma process_pending (node : Node) (ctx : Context) (st : State) :
  skipped node = Some false ->
  nodeName_lower node <> "br"%string ->
  justAppendedBr st = true ->
  process node ctx st
  = process node ctx
      {| content := content st;
         segments := segments st ++ [StringLit [LF]];
         args := args st;
         justAppendedBr := false;
         inBlockquote := inBlockquote st;
         groupWithNext := groupWithNext st |}.
Proof.
  intros Hs Hn Hb. rewrite !process_flush by assumption.
  unfold flush_line_break. rewrite Hb. reflexivity.
Qed.

(** A line break without children, when none is pending: it is only
    recorded. *)
Lemma process_first_br (p : Props) (ctx : Context) (st : State) :
  skipped (Element "br" p []) = Some false ->
  justAppendedBr st = false ->
  process (Element "br" p []) ctx st = Some (set_justAppendedBr true st).
Proof.
  intros Hs Hb. rewrite process_unfold. unfold process_node, line_break_step.
  rewrite Hs. simpl. rewrite Hb. simpl.
  unfold process_element. simpl.
  rewrite !andb_false_r. reflexivity.
Qed.

(** A line break when one is pending. *)
Lemma process_second_br (node : Node) (ctx : Context) (st : State) :
  skipped node = Some false ->
  nodeName_lower node = "br"%string ->
  justAppendedBr st = true ->
  process node ctx st = Document.break Paragraph (set_justAppendedBr false st).
Proof.
  intros Hs Hn Hb. rewrite process_unfold. unfold process_node, line_break_step.
  rewrite Hs, Hn, Hb. simpl.
  now destruct (Document.break Paragraph (set_justAppendedBr false st)).
Qed.

Lemma set_justAppendedBr_back (st : State) :
  justAppendedBr st = false ->
  set_justAppendedBr false (set_justAppendedBr true st) = st.
Proof. destruct st; simpl; intros ->; reflexivity. Qed.

(** C3: two line breaks in a row amount to [break(Paragraph)]: the
    open block, when it is present, is closed with the bare string of
    its kind, a blank line for a paragraph, and a paragraph is opened; a
    line break and then another node amount to that node handled after
    one bare ["\n"] has been pushed on the open buffer, the output
    being left alone. *)
Theorem line_break_coalescing (p1 p2 : Props) (node : Node)
    (ctx1 ctx2 : Context) (st : State) :
  justAppendedBr st = false ->
  skipped (Element "br" p1 []) = Some false ->
  (skipped (Element "br" p2 []) = Some false ->
   (process (Element "br" p1 []) ctx1 ;; process (Element "br" p2 []) ctx2) st
   = Document.break Paragraph st)
  /\ (forall block,
        args st = ArgsBlock block ->
        Document.isPresent st = true ->
        exists text,
          Document.break Paragraph st
          = Some {| content :=
                      content st ++ blockquote_prefix st ++ text
                        ++ terminator block;
                    segments := [];
                    args := ArgsBlock Paragraph;
                    justAppendedBr := justAppendedBr st;
                    inBlockquote := inBlockquote st;
                    groupWithNext := groupWithNext st |})
  /\ terminator Paragraph = [LF; LF]
  /\ (Document.isPresent st = false ->
      Document.break Paragraph st
      = Some {| content := content st;
                segments := [];
                args := ArgsBlock Paragraph;
                justAppendedBr := justAppendedBr st;
                inBlockquote := inBlockquote st;
                groupWithNext := groupWithNext st |})
  /\ (skipped node = Some false ->
      nodeName_lower node <> "br"%string ->
      (process (Element "br" p1 []) ctx1 ;; process node ctx2) st
      = process node ctx2
          {| content := content st;
             segments := segments st ++ [StringLit [LF]];
             args := args st;
             justAppendedBr := false;
             inBlockquote := inBlockquote st;
             groupWithNext := groupWithNext st |}).
Proof.
  intros Hb H1. split; [|split; [|split; [|split]]].
  - intros H2. unfold seq. rewrite process_first_br by assumption.
    rewrite process_second_br by auto.
    now rewrite set_justAppendedBr_back.
  - intros block. apply break_present.
  - reflexivity.
  - intros Hp. unfold Document.break, seq.
    now rewrite finish_absent by assumption.
  - intros Hs Hn. unfold seq. rewrite process_first_br by assumption.
    rewrite process_pending by auto. reflexivity.
Qed.

Lemma process_each_cons (parent : string) (done todo : list Node) (child : Node) :
  process_each parent done (child :: todo)
  = process child {| parentNode := Some parent; before := done; after := todo |} ;;
    process_each parent (child :: done) todo.
Proof. reflexivity. Qed.

Lemma count_previous_elements (siblings : list Node) (index : nat) :
  count_previous siblings index = index + List.length (filter is_element siblings).
Proof.
  revert index. induction siblings as [|s rest IH]; intros index; simpl.
  - lia.
  - destruct (is_element s); rewrite IH; simpl; lia.
Qed.

Lemma matches_any_attributes (name : string) (q : Props)
    (attrs : list (string * str)) (nodes : list Node) (selectors : list string) :
  matches_any (Element name (with_attributes attrs q) nodes) selectors
  = matches_any (Element name q nodes) selectors.
Proof.
  induction selectors as [|selector rest IH]; simpl; auto.
  now rewrite IH.
Qed.

Lemma skipped_attributes (name : string) (q : Props)
    (attrs : list (string * str)) (nodes : list Node) :
  skipped (Element name (with_attributes attrs q) nodes)
  = skipped (Element name q nodes).
Proof.
  unfold skipped. simpl nodeName_lower.
  destruct (exclude options) as [selectors|].
  - rewrite matches_any_attributes. destruct q. reflexivity.
  - destruct q. reflexivity.
Qed.

(** C4: when the children of an [ol] are processed and an [li] is
    reached, the list item is opened with the ordinal one plus the number
    of elements among the siblings before it; and no attribute of an
    element, [start] among them, has any part in how it is processed. *)
Theorem ordered_list_ordinals (p : Props) (children done todo : list Node)
    (st : State) :
  skipped (Element "li" p children) = Some false ->
  process_each "ol" done (Element "li" p children :: todo) st
  = (Document.break
       (ListItem (negb (existsb is_element todo))
                 (Some (1 + List.length (filter is_element done)))) ;;
     processFlowContent (processChildren (Element "li" p children)) ;;
     process_each "ol" (Element "li" p children :: done) todo)
      (flush_line_break st)
  /\ forall name q attrs nodes ctx st',
       process (Element name (with_attributes attrs q) nodes) ctx st'
       = process (Element name q nodes) ctx st'.
Proof.
  intros Hs. split.
  - rewrite process_each_cons. unfold seq at 1.
    rewrite process_flush by (auto; discriminate).
    unfold dispatch, process_element. simpl.
    rewrite !andb_false_r. simpl.
    rewrite count_previous_elements.
    unfold nextElementSibling_is_null. simpl.
    unfold seq.
    now destruct (Document.break _ (flush_line_break st)).
  - intros name q attrs nodes ctx st'.
    rewrite !process_unfold. unfold process_node.
    rewrite skipped_attributes. simpl nodeName_lower.
    destruct (skipped (Element name q nodes)) as [[|]|]; reflexivity.
Qed.

Lemma skipped_text (data : str) :
  exclude options = None -> skipped (Text data) = Some false.
Proof.
  intros He. unfold skipped. simpl. rewrite He.
  destruct (excludeHidden options); auto.
  unfold isElementVisible. now destruct (negb (isDomReal domDocument)).
Qed.

Lemma process_text (data : str) (ctx : Context) (st : State) :
  exclude options = None ->
  justAppendedBr st = false ->
  process (Text data) ctx st
  = Some (set_segments (segments st ++ [SpanObj (Utils.escape data)]) st).
Proof.
  intros He Hb. rewrite process_flush by (auto using skipped_text; discriminate).
  unfold flush_line_break. rewrite Hb. reflexivity.
Qed.

(** Text nodes in a row push their escaped texts as Spans. *)
Lemma process_each_texts (parent : string) (datas : list str) :
  exclude options = None ->
  forall done st,
    justAppendedBr st = false ->
    process_each parent done (map Text datas) st
    = Some (set_segments
              (segments st ++ map (fun d => SpanObj (Utils.escape d)) datas) st).
Proof.
  intros He. induction datas as [|d rest IH]; intros done st Hb.
  - simpl. unfold skip. destruct st; unfold set_segments; simpl.
    now rewrite app_nil_r.
  - simpl map. rewrite process_each_cons. unfold seq.
    rewrite process_text by assumption.
    rewrite IH by exact Hb.
    destruct st; unfold set_segments; simpl. now rewrite <- app_assoc.
Qed.

(** C8: an anchor with text and without a block or heading below it
    pushes a raw ["["], the segments of its children and a raw
    ["](" + href + ")"] when links are enabled, and the segments of its
    children alone when they are not; when its children are text nodes
    these segments are the Spans of their escaped texts, and the block
    is rendered as the normalised text of all of them together. *)
Theorem anchor_rendering (p : Props) (children : list Node) (ctx : Context)
    (st : State) (text : str) :
  skipped (Element "a" p children) = Some false ->
  node_text textProperty (Element "a" p children) = Some text ->
  Utils.isPresent text = true ->
  has_break_descendant (Element "a" p children) = false ->
  process (Element "a" p children) ctx st
  = (if links options
     then (Document.push (SpanObj (lit "[")) ;;
           processChildren (Element "a" p children) ;;
           Document.push (SpanObj (lit "](" ++ href p ++ lit ")")))
            (flush_line_break st)
     else processChildren (Element "a" p children) (flush_line_break st))
  /\ (forall datas,
        children = map Text datas ->
        exclude options = None ->
        justAppendedBr st = false ->
        let spans := map (fun d => SpanObj (Utils.escape d)) datas in
        process (Element "a" p children) ctx st
        = Some (set_segments
                  (segments st
                     ++ (if links options
                         then [SpanObj (lit "[")] ++ spans
                                ++ [SpanObj (lit "](" ++ href p ++ lit ")")]
                         else spans)) st)
        /\ Stringifier.stringify
             (toArray Paragraph
                ([SpanObj (lit "[")] ++ spans
                   ++ [SpanObj (lit "](" ++ href p ++ lit ")")]))
           = Some (Utils.normalise
                     (lit "[" ++ List.concat (map Utils.escape datas)
                        ++ lit "](" ++ href p ++ lit ")") ++ [LF; LF])
        /\ Stringifier.stringify (toArray Paragraph spans)
           = Some (Utils.normalise (List.concat (map Utils.escape datas))
                     ++ [LF; LF])).
Proof.
  intros Hs Ht Hp Hb.
  assert (E : process (Element "a" p children) ctx st
              = (if links options
                 then (Document.push (SpanObj (lit "[")) ;;
                       processChildren (Element "a" p children) ;;
                       Document.push (SpanObj (lit "](" ++ href p ++ lit ")")))
                        (flush_line_break st)
                 else processChildren (Element "a" p children)
                        (flush_line_break st))).
  { rewrite process_flush by (auto; discriminate).
    unfold dispatch, process_element, if_text_present.
    rewrite Ht, Hp, Hb. simpl.
    rewrite andb_false_r, andb_true_r.
    destruct (links options); reflexivity. }
  split; [exact E|].
  intros datas Hc He Hj. cbv zeta. split; [|split].
  - rewrite E. unfold flush_line_break. rewrite Hj. subst children.
    destruct (links options).
    + unfold seq, Document.push.
      change (processChildren (Element "a" p (map Text datas)))
        with (process_each "a" [] (map Text datas)).
      rewrite process_each_texts by (auto).
      destruct st; unfold set_segments; simpl. now rewrite <- !app_assoc.
    + change (processChildren (Element "a" p (map Text datas)))
        with (process_each "a" [] (map Text datas)).
      now rewrite process_each_texts by auto.
  - replace ([SpanObj (lit "[")]
               ++ map (fun d => SpanObj (Utils.escape d)) datas
               ++ [SpanObj (lit "](" ++ href p ++ lit ")")])
      with (map SpanObj
              ([lit "["] ++ map Utils.escape datas
                 ++ [lit "](" ++ href p ++ lit ")"]))
      by (now rewrite !map_app, map_map).
    unfold toArray, Paragraph_toArray. rewrite stringify_spans_literal.
    rewrite !concat_app. simpl. now rewrite app_nil_r.
  - replace (map (fun d => SpanObj (Utils.escape d)) datas)
      with (map SpanObj (map Utils.escape datas)) by (now rewrite map_map).
    unfold toArray, Paragraph_toArray. now rewrite stringify_spans_literal.
Qed.

(** C10: the pending line break is pushed as a bare string; the
    Stringifier copies bare strings as they are, next to Spans too; a
    buffer of bare strings only is not present, so that [break] drops it
    and leaves the output alone; and a line break alone pushes nothing. *)
Theorem deferred_newline_is_bare (node : Node) (p : Props) (ctx : Context)
    (st : State) :
  (skipped node = Some false ->
   nodeName_lower node <> "br"%string ->
   justAppendedBr st = true ->
   process node ctx st
   = process node ctx
       {| content := content st;
          segments := segments st ++ [StringLit [LF]];
          args := args st;
          justAppendedBr := false;
          inBlockquote := inBlockquote st;
          groupWithNext := groupWithNext st |})
  /\ (forall s strings,
        Stringifier.stringify (map StringLit (s :: strings))
        = Some (List.concat (s :: strings)))
  /\ (forall a s b,
        Stringifier.stringify [SpanObj a; StringLit s; SpanObj b]
        = Some (Utils.normalise a ++ s ++ Utils.normalise b))
  /\ (forall strings block,
        segments st = map StringLit strings ->
        Document.isPresent st = false
        /\ Document.break block st
           = Some {| content := content st;
                     segments := [];
                     args := ArgsBlock block;
                     justAppendedBr := justAppendedBr st;
                     inBlockquote := inBlockquote st;
                     groupWithNext := groupWithNext st |})
  /\ (skipped (Element "br" p []) = Some false ->
      justAppendedBr st = false ->
      process (Element "br" p []) ctx st
      = Some {| content := content st;
                segments := segments st;
                args := args st;
                justAppendedBr := true;
                inBlockquote := inBlockquote st;
                groupWithNext := groupWithNext st |}).
Proof.
  split; [|split; [|split; [|split]]].
  - apply process_pending.
  - intros s strings. simpl map. rewrite stringify_runs. simpl constructor_name.
    rewrite runs_strings.
    + unfold Stringifier.render_chunk. simpl.
      change (StringLit s :: map StringLit strings)
        with (map StringLit (s :: strings)).
      unfold join_segments. rewrite join_nil_concat, map_map. simpl.
      now rewrite map_id, app_nil_r.
    + now induction strings.
  - intros a s b. unfold Stringifier.stringify. simpl.
    unfold Stringifier.render_chunk, join_segments. simpl.
    now rewrite ?app_nil_r.
  - intros strings block Hseg.
    assert (Ha : Document.isPresent st = false).
    { unfold Document.isPresent. rewrite Hseg. clear.
      induction strings; simpl; auto. }
    split; auto. unfold Document.break, seq. now rewrite finish_absent by assumption.
  - intros Hs Hb. now rewrite process_first_br by assumption.
Qed.

End Traversal.

(** ** Preformatted blocks, rendered *)

Lemma join_blank_lines (p : str) (paragraphs : list str) :
  join [LF; LF] (p :: paragraphs) ++ [LF; LF]
  = blank_line_after (p :: paragraphs).
Proof.
  unfold blank_line_after. revert p.
  induction paragraphs as [|q rest IH]; intros p.
  - simpl. now rewrite app_nil_r.
  - change (join [LF; LF] (p :: q :: rest))
      with (p ++ [LF; LF] ++ join [LF; LF] (q :: rest)).
    change (flat_map (fun p0 => p0 ++ [LF; LF]) (p :: q :: rest))
      with ((p ++ [LF; LF]) ++ flat_map (fun p0 => p0 ++ [LF; LF]) (q :: rest)).
    rewrite <- IH. now rewrite <- !app_assoc.
Qed.

Lemma Pre_toArray_survivors (segs : list Segment) :
  toArray Pre segs
  = match Pre_survivors segs with
    | [] => []
    | _ :: _ => [StringLit (blank_line_after (Pre_survivors segs))]
    end.
Proof.
  unfold toArray, Pre_toArray, Pre_survivors. rewrite Pre_loop_filter. simpl app.
  destruct (filter _ _) as [|p ps]; [reflexivity|].
  now rewrite join_blank_lines.
Qed.

(** C6: a preformatted block gives one bare string: the text of its
    children, split on runs of two line feeds or more, each paragraph
    normalised, the empty ones dropped, and each of the others followed
    by a blank line; the Stringifier and [finish] render it as it is; it
    gives nothing when no paragraph is left, and then the block is not
    present; [process] opens such a block for a [pre] element, processes
    the children and closes it. *)
Theorem Pre_toArray_spec (segs : list Segment) :
  toArray Pre segs
  = match Pre_survivors segs with
    | [] => []
    | _ :: _ => [StringLit (blank_line_after (Pre_survivors segs))]
    end
  /\ Stringifier.stringify (toArray Pre segs)
     = match Pre_survivors segs with
       | [] => None
       | _ :: _ => Some (blank_line_after (Pre_survivors segs))
       end
  /\ (forall st,
        segments st = segs ->
        args st = ArgsBlock Pre ->
        Document.finish st
        = Some (if Document.isPresent st
                then finished st (blank_line_after (Pre_survivors segs))
                else st)
        /\ (Pre_survivors segs = [] -> Document.isPresent st = false))
  /\ (forall options textProperty domDocument p children ctx st,
        skipped options domDocument (Element "pre" p children) = Some false ->
        process options textProperty domDocument (Element "pre" p children) ctx st
        = (Document.break Pre ;;
           processChildren options textProperty domDocument
             (Element "pre" p children) ;;
           Document.break Paragraph) (flush_line_break st))
  /\ (forall text, has_blank_line text = false -> split_paragraphs text = [text])
  /\ (forall n paragraph text,
        has_blank_line paragraph = false ->
        last paragraph SP <> LF ->
        starts_with_LF text = false ->
        split_paragraphs (paragraph ++ LF :: LF :: repeat LF n ++ text)
        = paragraph :: split_paragraphs text)
  /\ toArray Pre [SpanObj pre_sample]
     = [StringLit (lit "a b" ++ [LF; LF] ++ lit "c d" ++ [LF; LF])]
  /\ deba (detached (elem "pre" [Text pre_sample])) default_options
     = Some (lit "a b" ++ [LF; LF] ++ lit "c d").
Proof.
  split; [apply Pre_toArray_survivors|].
  split; [rewrite Pre_toArray_survivors; now destruct (Pre_survivors segs)|].
  split; [|split; [|split; [|split; [|split]]]].
  - intros st Hseg Ha. subst segs. split.
    + destruct (Document.isPresent st) eqn:Hp.
      * destruct (finish_present _ Ha Hp) as (rendered & Hr & Hf).
        rewrite Hf. rewrite Pre_toArray_survivors in Hr.
        destruct (Pre_survivors (segments st)); [discriminate|].
        unfold Stringifier.stringify in Hr. simpl in Hr.
        injection Hr as <-. reflexivity.
      * now apply finish_absent.
    + intros He. destruct (Document.isPresent st) eqn:Hp; auto.
      exfalso. apply (present_toArray_nonempty st Pre Hp).
      rewrite Pre_toArray_survivors. now rewrite He.
  - intros options textProperty domDocument p children ctx st Hs.
    rewrite process_flush by (auto; discriminate).
    unfold dispatch, process_element. simpl.
    now rewrite !andb_false_r.
  - intros text. apply (@split_loop_no_blank_line text []).
  - intros n paragraph text Hb Hl Ht.
    now apply (@split_loop_paragraph n text paragraph Ht []).
  - reflexivity.
  - vm_compute. reflexivity.
Qed.

(** ** The examples of the specification *)

(** C1: for [<ul><li>a</li><li>b</li></ul>] the output accumulated is
    ["* a\n* b\n\n"]: a list item is rendered as its prefix, its children
    in one normalised text and a line feed, and the last item alone gets a
    second line feed. *)
Theorem list_output :
  extract_content (detached ul_a_b) default_options
  = Some (lit "* a" ++ [LF] ++ lit "* b" ++ [LF; LF])
  /\ forall texts last index,
       Stringifier.stringify (toArray (ListItem last index) (map SpanObj texts))
       = Some (ListItem_prefix index ++ Utils.normalise (List.concat texts)
                 ++ [LF] ++ (if last then [LF] else [])).
Proof.
  split.
  - vm_compute. reflexivity.
  - apply ListItem_rendering.
Qed.

(** The output is not the one with a blank line after the first item. *)
Lemma list_output_no_blank_line_between :
  extract_content (detached ul_a_b) default_options
  <> Some (lit "* a" ++ [LF; LF] ++ lit "* b" ++ [LF; LF]).
Proof. vm_compute. discriminate. Qed.

(** C9: without input nodes the result is the empty string. *)
Theorem empty_input (options : Options) :
  deba (Many []) options = Some []
  /\ extract_content (Many []) options = Some [].
Proof. split; reflexivity. Qed.

Example br_br_in_paragraph :
  extract_content (detached p_a_br_br_b) default_options
  = Some (lit "a" ++ [LF; LF] ++ lit "b" ++ [LF; LF])
  /\ deba (detached p_a_br_br_b) default_options
     = Some (lit "a" ++ [LF; LF] ++ lit "b").
Proof. split; vm_compute; reflexivity. Qed.

Example br_in_paragraph :
  deba (detached p_a_br_b) default_options = Some (lit "a" ++ [LF] ++ lit "b").
Proof. vm_compute. reflexivity. Qed.

(** Inside a list item that is not the last one, the block that two line
    breaks close ends as such an item does. *)
Example br_br_in_list_item :
  extract_content (detached ul_br_br) default_options
  = Some (lit "* a" ++ [LF] ++ lit "b" ++ [LF; LF] ++ lit "* c" ++ [LF; LF]).
Proof. vm_compute. reflexivity. Qed.

Example lone_br : extract_content (detached br) default_options = Some [].
Proof. vm_compute. reflexivity. Qed.

Example ordered_list_with_start :
  extract_content (detached ol_x_y) default_options
  = Some (lit "1. x" ++ [LF] ++ lit "2. y" ++ [LF; LF]).
Proof. vm_compute. reflexivity. Qed.

Example anchor_links_on :
  deba (detached a_t) default_options = Some (lit "[t](http://e.com/)").
Proof. vm_compute. reflexivity. Qed.

(** The link does not hold the [href] as the markup writes it. *)
Lemma anchor_output_has_resolved_url :
  deba (detached a_t) default_options <> Some (lit "[t](http://e.com)").
Proof. vm_compute. discriminate. Qed.

Example anchor_links_off : deba (detached a_t) links_off = Some (lit "t").
Proof. vm_compute. reflexivity. Qed.

(** ** Instances *)

Lemma finish_frame_witness :
  Document.finish paragraph_blank = Some paragraph_blank
  /\ Document.break Pre paragraph_blank
     = Some (set_args (ArgsBlock Pre) (set_segments [] paragraph_blank))
  /\ Document.finish quoted_a
     = Some (set_args ArgsSpent
               (set_content (lit "> a" ++ [LF; LF]) quoted_a)).
Proof.
  destruct (finish_frame paragraph_blank) as (H1 & H2 & _).
  destruct (finish_frame quoted_a) as (_ & _ & H3).
  split; [|split].
  - apply H1. intros text [H|[]]. injection H as <-. reflexivity.
  - apply H2. reflexivity.
  - destruct (H3 Paragraph eq_refl) as (rendered & Hr & Hf).
    + exists (lit "a"). split; [now left|reflexivity].
    + rewrite Hf. vm_compute in Hr. injection Hr as <-. reflexivity.
Defined.

Lemma line_break_coalescing_witness :
  justAppendedBr paragraph_a = false
  /\ skipped default_options hidden_document br = Some false
  /\ (process default_options TextContentProperty hidden_document br
        (only_child "p") ;;
      process default_options TextContentProperty hidden_document br
        (only_child "p")) paragraph_a
     = Document.break Paragraph paragraph_a
  /\ (exists text,
        Document.break Paragraph paragraph_a
        = Some {| content := text ++ [LF; LF]; segments := [];
                  args := ArgsBlock Paragraph; justAppendedBr := false;
                  inBlockquote := false; groupWithNext := false |})
  /\ (process default_options TextContentProperty hidden_document br
        (only_child "p") ;;
      process default_options TextContentProperty hidden_document
        (Text (lit "b")) (only_child "p")) paragraph_a
     = Some {| content := [];
               segments := [SpanObj (lit "a"); StringLit [LF]; SpanObj (lit "b")];
               args := ArgsBlock Paragraph;
               justAppendedBr := false; inBlockquote := false;
               groupWithNext := false |}.
Proof.
  destruct (@line_break_coalescing default_options TextContentProperty
              hidden_document plain_props plain_props (Text (lit "b"))
              (only_child "p") (only_child "p") paragraph_a
              eq_refl eq_refl) as (H1 & H2 & _ & _ & H3).
  split; [reflexivity|]. split; [reflexivity|]. split; [|split].
  - apply H1. reflexivity.
  - destruct (H2 Paragraph eq_refl eq_refl) as [text H]. now exists text.
  - unfold br, elem. rewrite H3; [reflexivity|reflexivity|discriminate].
Defined.

(** Two line breaks in a list item that is not the last one close it
    with one line feed: no blank line is put out. *)
Lemma line_breaks_in_list_item_no_blank_line :
  ~ exists text,
      option_map content
        ((process default_options TextContentProperty hidden_document br
            (only_child "li") ;;
          process default_options TextContentProperty hidden_document br
            (only_child "li")) list_item_a)
      = Some (content list_item_a ++ text ++ [LF; LF]).
Proof.
  intros [text H].
  assert (E : option_map content
                ((process default_options TextContentProperty hidden_document br
                    (only_child "li") ;;
                  process default_options TextContentProperty hidden_document br
                    (only_child "li")) list_item_a)
              = Some (lit "* a" ++ [LF])) by (vm_compute; reflexivity).
  rewrite E in H. injection H as H. simpl content in H. simpl app in H.
  apply (f_equal (@rev char)) in H. rewrite rev_app_distr in H.
  vm_compute in H. discriminate.
Qed.

Lemma ordered_list_ordinals_witness :
  skipped default_options hidden_document (elem "li" [Text (lit "y")])
  = Some false
  /\ process_each default_options TextContentProperty hidden_document "ol"
       [elem "li" [Text (lit "x")]] [elem "li" [Text (lit "y")]] fresh_paragraph
     = Some {| content := lit "2. y" ++ [LF; LF];
               segments := [];
               args := ArgsBlock Paragraph;
               justAppendedBr := false; inBlockquote := false;
               groupWithNext := false |}.
Proof.
  split; [reflexivity|].
  unfold elem at 2.
  rewrite (proj1 (@ordered_list_ordinals default_options TextContentProperty
                    hidden_document plain_props [Text (lit "y")]
                    [elem "li" [Text (lit "x")]] [] fresh_paragraph eq_refl)).
  vm_compute. reflexivity.
Defined.

Lemma anchor_rendering_witness :
  skipped default_options hidden_document a_t = Some false
  /\ node_text TextContentProperty a_t = Some (lit "t")
  /\ Utils.isPresent (lit "t") = true
  /\ has_break_descendant a_t = false
  /\ process default_options TextContentProperty hidden_document a_t
       (only_child "p") fresh_paragraph
     = Some {| content := [];
               segments := [SpanObj (lit "["); SpanObj (lit "t");
                            SpanObj (lit "](http://e.com/)")];
               args := ArgsBlock Paragraph;
               justAppendedBr := false; inBlockquote := false;
               groupWithNext := false |}
  /\ Stringifier.stringify
       (toArray Paragraph
          [SpanObj (lit "["); SpanObj (lit "t"); SpanObj (lit "](http://e.com/)")])
     = Some (lit "[t](http://e.com/)" ++ [LF; LF]).
Proof.
  do 4 (split; [reflexivity|]).
  destruct (@anchor_rendering default_options TextContentProperty hidden_document
              (with_href (lit "http://e.com/") plain_props) [Text (lit "t")]
              (only_child "p") fresh_paragraph (lit "t")
              eq_refl eq_refl eq_refl eq_refl) as [_ H].
  destruct (H [lit "t"] eq_refl eq_refl eq_refl) as (H1 & H2 & _).
  split.
  - unfold a_t. rewrite H1. reflexivity.
  - exact H2.
Defined.

Lemma deferred_newline_is_bare_witness :
  process default_options TextContentProperty hidden_document (Text (lit "b"))
    (only_child "p") (set_justAppendedBr true paragraph_a)
  = Some {| content := [];
            segments := [SpanObj (lit "a"); StringLit [LF]; SpanObj (lit "b")];
            args := ArgsBlock Paragraph;
            justAppendedBr := false; inBlockquote := false;
            groupWithNext := false |}
  /\ Document.break Paragraph (set_segments [StringLit [LF]] paragraph_blank)
     = Some (set_segments [] paragraph_blank)
  /\ process default_options TextContentProperty hidden_document br
       (only_child "p") paragraph_a
     = Some (set_justAppendedBr true paragraph_a).
Proof.
  destruct (@deferred_newline_is_bare default_options TextContentProperty
              hidden_document (Text (lit "b")) plain_props (only_child "p")
              (set_justAppendedBr true paragraph_a)) as (H1 & _ & _ & _ & _).
  destruct (@deferred_newline_is_bare default_options TextContentProperty
              hidden_document (Text (lit "b")) plain_props (only_child "p")
              (set_segments [StringLit [LF]] paragraph_blank))
    as (_ & _ & _ & H4 & _).
  destruct (@deferred_newline_is_bare default_options TextContentProperty
              hidden_document (Text (lit "b")) plain_props (only_child "p")
              paragraph_a) as (_ & _ & _ & _ & H5).
  split; [|split].
  - rewrite H1; [reflexivity|reflexivity|discriminate|reflexivity].
  - destruct (H4 [[LF]] Paragraph eq_refl) as [_ H]. rewrite H. reflexivity.
  - unfold br, elem. rewrite H5; reflexivity.
Defined.

(** * Further properties *)

(** ** Utils *)

(** X1: a text is present exactly when it has a character that is not
    white space. *)
Theorem isPresent_iff_nonspace (text : str) :
  Utils.isPresent text = true
  <-> exists c, In c text /\ is_space c = false.
Proof.
  split.
  - apply isPresent_witness.
  - intros (c & Hin & Hc). now apply present_has_char with (c := c).
Qed.

Lemma isPresent_iff_nonspace_witness :
  Utils.isPresent (lit " a ") = true /\ Utils.isPresent [SP; LF; 160%N] = false.
Proof.
  split.
  - apply (proj2 (isPresent_iff_nonspace (lit " a "))).
    exists 97%N. split; [right; now left|reflexivity].
  - reflexivity.
Defined.

Lemma single_spaced_In (text : str) (in_run : bool) (c : char) :
  single_spaced in_run text = true -> In c text -> is_space c = true -> c = SP.
Proof.
  revert in_run. induction text as [|x rest IH]; simpl; intros in_run H Hin Hc.
  - contradiction.
  - destruct (is_space x) eqn:E.
    + apply andb_true_iff in H as [H1 H2]. apply andb_true_iff in H1 as [_ H1].
      destruct Hin as [->|Hin]; [now apply N.eqb_eq in H1|eauto].
    + destruct Hin as [->|Hin]; [congruence|eauto].
Qed.

(** X2: [normalise] keeps the characters that are not white space, in
    their order; the white space it leaves is made of the space character
    alone; and the text is present after it exactly when it was before. *)
Theorem normalise_keeps_text (text : str) :
  filter not_space (Utils.normalise text) = filter not_space text
  /\ (forall c, In c (Utils.normalise text) -> is_space c = true -> c = SP)
  /\ Utils.isPresent (Utils.normalise text) = Utils.isPresent text.
Proof.
  split; [|split].
  - apply filter_space_normalise.
  - intros c. apply single_spaced_In with (in_run := false).
    apply normalise_single_spaced.
  - rewrite !isPresent_filter. now rewrite filter_space_normalise.
Qed.

(** ** Escaping *)

Lemma span_while_split (p : char -> bool) (a : str) (x : char) (b : str) :
  forallb p a = true -> p x = false ->
  span_while p (a ++ x :: b) = (a, x :: b).
Proof.
  intros Ha Hx. induction a as [|c rest IH]; simpl.
  - now rewrite Hx.
  - simpl in Ha. apply andb_true_iff in Ha as [Hc Hr].
    now rewrite Hc, (IH Hr).
Qed.

Lemma filter_backslash_always (text : str) :
  filter not_backslash (Utils.escape_always text) = filter not_backslash text.
Proof.
  unfold Utils.escape_always.
  induction text as [|c rest IH]; auto.
  change (flat_map Utils.escape_char (c :: rest))
    with (Utils.escape_char c ++ flat_map Utils.escape_char rest).
  rewrite filter_app, IH. unfold Utils.escape_char.
  destruct (char_in c Utils.always_escaped); simpl;
    unfold not_backslash; destruct (c =? BACKSLASH)%N; reflexivity.
Qed.

Lemma filter_backslash_block_start (text : str) :
  filter not_backslash (Utils.escape_block_start text) = filter not_backslash text.
Proof.
  unfold Utils.escape_block_start.
  pose proof (span_while_app is_space text) as H.
  destruct (span_while is_space text) as [ws rest]. simpl in H.
  destruct rest as [|c rest']; auto.
  destruct (char_in c Utils.block_start); auto.
  rewrite <- H, !filter_app. reflexivity.
Qed.

Lemma filter_backslash_entities (text : str) (in_match : bool) :
  filter not_backslash (Utils.escape_entities_from in_match text)
  = filter not_backslash text.
Proof.
  revert in_match. induction text as [|c rest IH]; intros in_match; simpl; auto.
  destruct in_match.
  - simpl. now rewrite IH.
  - destruct ((c =? Utils.AMP)%N && Utils.semicolon_on_line rest);
      simpl; now rewrite IH.
Qed.

Lemma filter_backslash_ordinal (text : str) :
  filter not_backslash (Utils.escape_ordinal text) = filter not_backslash text.
Proof.
  unfold Utils.escape_ordinal.
  pose proof (span_while_app is_space text) as H.
  destruct (span_while is_space text) as [ws rest]. simpl in H.
  pose proof (span_while_app is_digit rest) as H'.
  destruct (span_while is_digit rest) as [digits rest']. simpl in H'.
  destruct digits as [|d0 digits]; auto.
  destruct rest' as [|d [|s tail]]; auto.
  destruct ((d =? Utils.DOT)%N && (s =? SP)%N); auto.
  rewrite <- H, <- H', !filter_app. reflexivity.
Qed.

(** X3: [escape] only adds backslashes: without the backslashes, its
    result is its argument. *)
Theorem escape_only_adds_backslashes (text : str) :
  filter not_backslash (Utils.escape text) = filter not_backslash text.
Proof.
  unfold Utils.escape, Utils.escape_entities.
  now rewrite filter_backslash_ordinal, filter_backslash_entities,
    filter_backslash_block_start, filter_backslash_always.
Qed.

Lemma escape_always_inert (text : str) :
  forallb inert text = true -> Utils.escape_always text = text.
Proof.
  unfold Utils.escape_always.
  induction text as [|c rest IH]; auto.
  intros H. simpl in H. apply andb_true_iff in H as [Hc Hr].
  unfold inert in Hc. apply andb_true_iff in Hc as [Hc _].
  apply negb_true_iff in Hc.
  change (flat_map Utils.escape_char (c :: rest))
    with (Utils.escape_char c ++ flat_map Utils.escape_char rest).
  rewrite (IH Hr). unfold Utils.escape_char. now rewrite Hc.
Qed.

Lemma escape_entities_no_amp (text : str) :
  forallb (fun c => negb (c =? Utils.AMP)%N) text = true ->
  Utils.escape_entities text = text.
Proof.
  unfold Utils.escape_entities.
  induction text as [|c rest IH]; simpl; auto.
  intros H. apply andb_true_iff in H as [Hc Hr].
  apply negb_true_iff in Hc. rewrite Hc. simpl. now rewrite IH.
Qed.

Lemma inert_no_amp (text : str) :
  forallb inert text = true ->
  forallb (fun c => negb (c =? Utils.AMP)%N) text = true.
Proof.
  induction text as [|c rest IH]; simpl; auto.
  intros H. apply andb_true_iff in H as [Hc Hr].
  unfold inert in Hc. apply andb_true_iff in Hc as [_ Hc].
  now rewrite Hc, IH.
Qed.

Lemma forallb_insert (p : char -> bool) (a b : str) (x : char) :
  forallb p (a ++ b) = true -> p x = true -> forallb p (a ++ x :: b) = true.
Proof.
  rewrite !forallb_app. simpl. intros H Hx.
  apply andb_true_iff in H as [Ha Hb]. now rewrite Ha, Hx, Hb.
Qed.

Lemma block_start_not_space (c : char) :
  char_in c Utils.block_start = true -> is_space c = false.
Proof.
  unfold char_in, Utils.block_start. simpl. intros H.
  repeat (apply orb_true_iff in H as [H|H]); try discriminate;
    apply N.eqb_eq in H; subst c; reflexivity.
Qed.

Lemma digit_not_space (c : char) : is_digit c = true -> is_space c = false.
Proof.
  unfold is_digit, is_space. intros H.
  apply andb_true_iff in H as [H1 H2].
  apply N.leb_le in H1. apply N.leb_le in H2.
  repeat (apply orb_false_iff; split);
    try (apply N.eqb_neq; lia);
    apply andb_false_iff;
    try (left; apply N.leb_gt; lia); right; apply N.leb_gt; lia.
Qed.

Lemma digit_not_block_start (c : char) :
  is_digit c = true -> char_in c Utils.block_start = false.
Proof.
  unfold is_digit, char_in, Utils.block_start. simpl. intros H.
  apply andb_true_iff in H as [H1 H2].
  apply N.leb_le in H1. apply N.leb_le in H2.
  repeat (apply orb_false_iff; split); auto; apply N.eqb_neq; lia.
Qed.

(** X4: a text that begins, after white space, with one of [# + - = >]
    and has none of the characters [* < [ \ _ ` ~ &] gets one backslash
    before that character and no other change. *)
Theorem escape_leading_marker (ws : str) (c : char) (rest : str) :
  forallb is_space ws = true ->
  char_in c Utils.block_start = true ->
  forallb inert (ws ++ c :: rest) = true ->
  Utils.escape (ws ++ c :: rest) = ws ++ BACKSLASH :: c :: rest.
Proof.
  intros Hws Hc Hin. unfold Utils.escape.
  rewrite (escape_always_inert _ Hin).
  assert (E2 : Utils.escape_block_start (ws ++ c :: rest)
               = ws ++ BACKSLASH :: c :: rest).
  { unfold Utils.escape_block_start.
    rewrite (span_while_split is_space ws c rest Hws (block_start_not_space _ Hc)).
    now rewrite Hc. }
  rewrite E2.
  rewrite escape_entities_no_amp.
  - unfold Utils.escape_ordinal.
    rewrite (span_while_split is_space ws BACKSLASH (c :: rest) Hws eq_refl).
    reflexivity.
  - apply forallb_insert; [now apply inert_no_amp|reflexivity].
Qed.

Lemma escape_leading_marker_witness :
  Utils.escape (lit "  # Title") = lit "  \# Title".
Proof.
  apply (escape_leading_marker (lit "  ") 35%N (lit " Title"));
    reflexivity.
Defined.

(** X5: a text that begins, after white space, with digits, a dot and a
    space, and has none of the characters [* < [ \ _ ` ~ &], gets one
    backslash before the dot and no other change. *)
Theorem escape_leading_ordinal (ws : str) (d : char) (digits rest : str) :
  forallb is_space ws = true ->
  forallb is_digit (d :: digits) = true ->
  forallb inert (ws ++ (d :: digits) ++ Utils.DOT :: SP :: rest) = true ->
  Utils.escape (ws ++ (d :: digits) ++ Utils.DOT :: SP :: rest)
  = ws ++ (d :: digits) ++ BACKSLASH :: Utils.DOT :: SP :: rest.
Proof.
  intros Hws Hd Hin. unfold Utils.escape.
  rewrite (escape_always_inert _ Hin).
  assert (Hd0 : is_digit d = true) by (simpl in Hd; now apply andb_true_iff in Hd).
  assert (E2 : Utils.escape_block_start (ws ++ (d :: digits) ++ Utils.DOT :: SP :: rest)
               = ws ++ (d :: digits) ++ Utils.DOT :: SP :: rest).
  { unfold Utils.escape_block_start. simpl app.
    rewrite (span_while_split is_space ws d _ Hws (digit_not_space _ Hd0)).
    now rewrite (digit_not_block_start _ Hd0). }
  rewrite E2, (escape_entities_no_amp _ (inert_no_amp _ Hin)).
  unfold Utils.escape_ordinal. simpl app.
  rewrite (span_while_split is_space ws d _ Hws (digit_not_space _ Hd0)).
  change (d :: digits ++ Utils.DOT :: SP :: rest)
    with ((d :: digits) ++ Utils.DOT :: SP :: rest).
  rewrite (span_while_split is_digit (d :: digits) Utils.DOT (SP :: rest) Hd eq_refl).
  reflexivity.
Qed.

Lemma escape_leading_ordinal_witness :
  Utils.escape (lit "12. twelve") = lit "12\. twelve".
Proof.
  apply (escape_leading_ordinal [] 49%N (lit "2") (lit "twelve")); reflexivity.
Defined.





(** ** The Stringifier, further *)

Lemma TypeName_eqb_refl (t : TypeName) : TypeName_eqb t t = true.
Proof. now destruct t. Qed.

Lemma runs_concat (segments : list Segment) :
  forall t current,
    List.concat (map snd (runs t current segments)) = current ++ segments.
Proof.
  induction segments as [|s rest IH]; intros t current; simpl.
  - now rewrite !app_nil_r.
  - destruct (TypeName_eqb (constructor_name s) t); simpl.
    + rewrite IH. now rewrite <- app_assoc.
    + rewrite IH. reflexivity.
Qed.

Lemma runs_head (segments : list Segment) (t : TypeName) (current : list Segment) :
  exists chunk rest, runs t current segments = chunk :: rest /\ fst chunk = Some t.
Proof.
  revert current. induction segments as [|s rest IH]; intros current; simpl.
  - now exists (Some t, current), [].
  - destruct (TypeName_eqb (constructor_name s) t); [apply IH|].
    now exists (Some t, current), (runs (constructor_name s) [s] rest).
Qed.

Lemma runs_alternating (segments : list Segment) :
  forall t current, alternating (runs t current segments) = true.
Proof.
  induction segments as [|s rest IH]; intros t current; simpl; auto.
  destruct (TypeName_eqb (constructor_name s) t) eqn:E; [apply IH|].
  destruct (runs_head rest (constructor_name s) [s]) as (chunk & tail & Hr & Ht).
  specialize (IH (constructor_name s) [s]). rewrite Hr in *.
  change (alternating ((Some t, current) :: chunk :: tail))
    with (negb (same_type (Some t) (fst chunk)) && alternating (chunk :: tail)).
  rewrite IH, andb_true_r, Ht. simpl.
  destruct t, (constructor_name s); simpl in *; congruence.
Qed.

Lemma well_typed_cons (t : TypeName) (s : Segment) (current : list Segment)
    (chunks : list Stringifier.Chunk) :
  forallb well_typed_chunk ((Some t, s :: current) :: chunks)
  = forallb (fun x => TypeName_eqb (constructor_name x) t) (s :: current)
    && forallb well_typed_chunk chunks.
Proof. reflexivity. Qed.

Lemma runs_well_typed (segments : list Segment) :
  forall t s current,
    forallb (fun x => TypeName_eqb (constructor_name x) t) (s :: current) = true ->
    forallb well_typed_chunk (runs t (s :: current) segments) = true.
Proof.
  induction segments as [|x rest IH]; intros t s current H.
  - simpl runs. now rewrite well_typed_cons, H.
  - simpl runs. destruct (TypeName_eqb (constructor_name x) t) eqn:E.
    + apply (IH t s (current ++ [x])).
      change (s :: current ++ [x]) with ((s :: current) ++ [x]).
      rewrite forallb_app, H. simpl. now rewrite E.
    + rewrite well_typed_cons, H. apply (IH (constructor_name x) x []).
      simpl. now rewrite TypeName_eqb_refl.
Qed.

(** X7: [chunkUpSegments] throws on an empty array and on no other; its
    chunks, put end to end, are the segments; each chunk holds one
    segment or more, all of the type it is labelled with; and two chunks
    side by side have different types. *)
Theorem chunkUpSegments_partition (segments : list Segment) :
  match Stringifier.chunkUpSegments segments with
  | Some chunks =>
      segments <> []
      /\ List.concat (map snd chunks) = segments
      /\ forallb well_typed_chunk chunks = true
      /\ alternating chunks = true
  | None => segments = []
  end.
Proof.
  destruct segments as [|s rest]; [reflexivity|].
  rewrite chunkUpSegments_runs.
  split; [discriminate|]. split; [apply runs_concat|]. split.
  - apply runs_well_typed. simpl. now rewrite TypeName_eqb_refl.
  - apply runs_alternating.
Qed.

(** X8: [stringify] throws exactly on the empty array. *)
Theorem stringify_throws_iff_empty (segments : list Segment) :
  Stringifier.stringify segments = None <-> segments = [].
Proof.
  split.
  - intros H. destruct segments as [|s rest]; auto.
    now rewrite stringify_runs in H.
  - now intros ->.
Qed.

Lemma stringify_throws_iff_empty_witness :
  Stringifier.stringify [] = None
  /\ Stringifier.stringify (toArray Pre [SpanObj (lit "  ")]) = None.
Proof.
  split; apply (proj2 (stringify_throws_iff_empty _)); reflexivity.
Defined.

Lemma runs_all_spans (texts : list str) :
  forall current,
    runs TSpan current (map SpanObj texts)
    = [(Some TSpan, current ++ map SpanObj texts)].
Proof.
  induction texts as [|t rest IH]; intros current; simpl.
  - now rewrite app_nil_r.
  - rewrite IH. now rewrite <- app_assoc.
Qed.

(** X9: Spans side by side are rendered as one text: their texts joined
    and then normalised, so that white space is collapsed across their
    borders. *)
Theorem stringify_spans (text : str) (texts : list str) :
  Stringifier.stringify (map SpanObj (text :: texts))
  = Some (Utils.normalise (List.concat (text :: texts))).
Proof.
  simpl map. rewrite stringify_runs. simpl constructor_name.
  rewrite runs_all_spans. simpl.
  unfold Stringifier.render_chunk. simpl.
  change (SpanObj text :: map SpanObj texts) with (map SpanObj (text :: texts)).
  rewrite join_segments_spans. now rewrite app_nil_r.
Qed.

Lemma runs_app (a : list Segment) :
  forall t current y b,
    TypeName_eqb (constructor_name y) (last_type t a) = false ->
    runs t current (a ++ y :: b)
    = runs t current a ++ runs (constructor_name y) [y] b.
Proof.
  induction a as [|x rest IH]; intros t current y b H; simpl in *.
  - now rewrite H.
  - destruct (TypeName_eqb (constructor_name x) t) eqn:E.
    + apply IH.
      destruct (constructor_name x), t; simpl in E; try discriminate; exact H.
    + rewrite (IH _ _ _ _ H). reflexivity.
Qed.

Lemma stringify_boundary (x : Segment) (a : list Segment) (y : Segment)
    (b : list Segment) :
  TypeName_eqb (constructor_name y) (last_type (constructor_name x) a) = false ->
  Stringifier.stringify ((x :: a) ++ y :: b)
  = match Stringifier.stringify (x :: a), Stringifier.stringify (y :: b) with
    | Some first, Some second => Some (first ++ second)
    | _, _ => None
    end.
Proof.
  intros H. simpl app. rewrite !stringify_runs.
  rewrite (runs_app a _ _ _ _ H). now rewrite map_app, concat_app.
Qed.

(** X10: when the last segment of an array and the first segment of
    another are of different types, the text of the two arrays put end
    to end is the text of the first followed by the text of the second. *)
Theorem stringify_app (x : Segment) (a : list Segment) (y : Segment)
    (b : list Segment) :
  TypeName_eqb (constructor_name y) (last_type (constructor_name x) a) = false ->
  Stringifier.stringify ((x :: a) ++ y :: b)
  = match Stringifier.stringify (x :: a), Stringifier.stringify (y :: b) with
    | Some first, Some second => Some (first ++ second)
    | _, _ => None
    end.
Proof. apply stringify_boundary. Qed.

Lemma stringify_app_witness :
  Stringifier.stringify
    [SpanObj (lit "a "); SpanObj (lit " b"); StringLit [LF]; SpanObj (lit " c")]
  = Some (lit "a b" ++ [LF] ++ lit "c").
Proof.
  change [SpanObj (lit "a "); SpanObj (lit " b"); StringLit [LF]; SpanObj (lit " c")]
    with ([SpanObj (lit "a "); SpanObj (lit " b")]
            ++ [StringLit [LF]; SpanObj (lit " c")]).
  rewrite (@stringify_app (SpanObj (lit "a ")) [SpanObj (lit " b")]
             (StringLit [LF]) [SpanObj (lit " c")] eq_refl).
  reflexivity.
Defined.

(** ** Blocks *)

(** X11: the text of a paragraph, of a heading, of a definition term and
    of a definition description whose children are Spans: the children
    in one normalised text, after the marks of a heading, and before the
    line feeds (and the colon) of the kind of block. *)
Theorem block_rendering (texts : list str) (level : nat) (last : bool) :
  Stringifier.stringify (toArray Paragraph (map SpanObj texts))
  = Some (Utils.normalise (List.concat texts) ++ [LF; LF])
  /\ Stringifier.stringify (toArray (Heading level) (map SpanObj texts))
     = Some (heading_marks level ++ [SP]
               ++ Utils.normalise (List.concat texts) ++ [LF; LF])
  /\ Stringifier.stringify (toArray DefinitionTerm (map SpanObj texts))
     = Some (Utils.normalise (List.concat texts) ++ [58%N; LF])
  /\ Stringifier.stringify
       (toArray (DefinitionDescription last) (map SpanObj texts))
     = Some (Utils.normalise (List.concat texts)
               ++ [LF] ++ (if last then [LF] else [])).
Proof.
  repeat split; try apply stringify_spans_literal.
  unfold toArray, Heading_toArray.
  change ([StringLit (heading_marks level ++ [SP])] ++ map SpanObj texts ++ ?l)
    with ([StringLit (heading_marks level ++ [SP])] ++ (map SpanObj texts ++ l)).
  destruct texts as [|t rest].
  - simpl. unfold Stringifier.stringify. simpl.
    unfold Stringifier.render_chunk, join_segments. simpl.
    rewrite <- ?app_assoc, ?app_nil_r. reflexivity.
  - pose proof (@stringify_boundary (StringLit (heading_marks level ++ [SP])) []
                  (SpanObj t) (map SpanObj rest ++ [StringLit [LF; LF]]) eq_refl)
      as E.
    cbn [app map] in E |- *. rewrite E. clear E.
    change (SpanObj t :: map SpanObj rest ++ [StringLit [LF; LF]])
      with (map SpanObj (t :: rest) ++ [StringLit [LF; LF]]).
    rewrite stringify_spans_literal.
    unfold Stringifier.stringify. simpl.
    unfold Stringifier.render_chunk, join_segments. simpl.
    now rewrite <- !app_assoc.
Qed.

(** X12: for each of the tags [h1] to [h6], the level read from the name
    is between 1 and 6 and the heading gets that number of marks. *)
Theorem heading_marks_of_tag (name : string) :
  includes HEADING_TAGS name = true ->
  1 <= parseInt_second name <= 6
  /\ heading_marks (parseInt_second name) = repeat 35%N (parseInt_second name).
Proof.
  unfold includes, HEADING_TAGS. simpl. intros H.
  repeat (apply orb_true_iff in H as [H|H]);
    try discriminate; apply String.eqb_eq in H; subst name;
    (split; [split; vm_compute; lia|reflexivity]).
Qed.

Lemma heading_marks_of_tag_witness :
  heading_marks (parseInt_second "h3") = lit "###".
Proof.
  rewrite (proj2 (heading_marks_of_tag "h3" eq_refl)). reflexivity.
Defined.

(** ** Preformatted blocks, further *)

Lemma split_loop_In (c : char) (text : str) :
  forall in_separator current piece,
    In piece (split_loop in_separator current text) ->
    In c piece ->
    In c (rev current ++ text).
Proof.
  induction text as [|x rest IH]; intros in_separator current piece Hp Hc.
  - simpl in Hp. destruct Hp as [<-|[]]. now rewrite app_nil_r.
  - assert (Hpush : In c (rev (x :: current) ++ rest) -> In c (rev current ++ x :: rest))
      by (simpl; now rewrite <- app_assoc).
    simpl in Hp. destruct (in_separator && (x =? LF)%N).
    + specialize (IH _ _ _ Hp Hc).
      apply in_app_or in IH as [H|H]; apply in_or_app; [now left|right; now right].
    + destruct rest as [|x' rest']; [now apply Hpush, (IH false _ piece)|].
      destruct ((x =? LF)%N && (x' =? LF)%N); [|now apply Hpush, (IH false _ piece)].
      destruct Hp as [<-|Hp].
      * apply in_or_app. now left.
      * specialize (IH true [] piece Hp Hc). simpl in IH.
        apply in_or_app. right. now right.
Qed.

Lemma Pre_present_nonempty (segments : list Segment) :
  Utils.isPresent (join_segments segments) = true ->
  filter (fun p => negb (is_empty p))
         (map Utils.normalise (split_paragraphs (join_segments segments))) <> [].
Proof.
  intros H. apply isPresent_witness in H as (c & Hc & Hs).
  assert (Hlf : (c =? LF)%N = false).
  { destruct (c =? LF)%N eqn:E; auto. apply N.eqb_eq in E. now subst c. }
  destruct (split_loop_keeps c (join_segments segments) Hlf false [] Hc)
    as (piece & Hp & Hcp).
  assert (Hn : In (Utils.normalise piece)
                  (filter (fun p => negb (is_empty p))
                          (map Utils.normalise
                               (split_paragraphs (join_segments segments))))).
  { apply filter_In. split; [now apply in_map|].
    rewrite <- isPresent_normalise. apply present_has_char with (c := c); auto.
    assert (Hf : In c (filter (fun c => negb (is_space c)) (Utils.normalise piece))).
    { rewrite filter_space_normalise. apply filter_In. now rewrite Hs. }
    now apply filter_In in Hf. }
  intros E. now rewrite E in Hn.
Qed.

Lemma Pre_nonempty_present (segments : list Segment) (p : str) :
  In p (filter (fun p => negb (is_empty p))
               (map Utils.normalise (split_paragraphs (join_segments segments)))) ->
  Utils.isPresent (join_segments segments) = true.
Proof.
  intros H. apply filter_In in H as [Hin Hne].
  apply in_map_iff in Hin as (piece & <- & Hpiece).
  rewrite <- isPresent_normalise in Hne.
  apply isPresent_witness in Hne as (c & Hc & Hs).
  assert (Hf : In c (filter (fun c => negb (is_space c)) (Utils.normalise piece)))
    by (apply filter_In; now rewrite Hs).
  rewrite filter_space_normalise in Hf. apply filter_In in Hf as [Hf _].
  apply present_has_char with (c := c); auto.
  apply (split_loop_In c (join_segments segments) false [] piece Hpiece Hf).
Qed.

(** X13: a preformatted block gives no segment, on which the Stringifier
    throws, exactly when the text of its children is blank. *)
Theorem Pre_empty_iff_blank (segments : list Segment) :
  toArray Pre segments = []
  <-> Utils.isPresent (join_segments segments) = false.
Proof.
  unfold toArray, Pre_toArray. rewrite Pre_loop_filter. simpl app.
  split.
  - intros H. destruct (Utils.isPresent (join_segments segments)) eqn:E; auto.
    apply Pre_present_nonempty in E. destruct (filter _ _); [congruence|discriminate].
  - intros H. destruct (filter _ _) as [|p ps] eqn:E; auto.
    rewrite (Pre_nonempty_present segments p) in H; [discriminate|].
    rewrite E. now left.
Qed.

Lemma Pre_empty_iff_blank_witness :
  toArray Pre [SpanObj [SP]; StringLit [LF]; SpanObj [LF; LF; 9%N]] = [].
Proof.
  apply (proj2 (Pre_empty_iff_blank _)). reflexivity.
Defined.

(** X14: the paragraphs that a preformatted block keeps are not empty,
    do not begin with white space, have no two white-space characters
    side by side and no line feed: a single line feed of the source is
    rendered as a space. *)
Theorem Pre_paragraphs_one_line (segments : list Segment) (p : str) :
  In p (Pre_loop (split_paragraphs (join_segments segments)) []) ->
  p <> []
  /\ starts_clean p = true
  /\ has_space_run p = false
  /\ ~ In LF p.
Proof.
  rewrite Pre_loop_filter. simpl app. intros H.
  apply filter_In in H as [Hin Hne].
  apply in_map_iff in Hin as (piece & <- & _).
  split; [now destruct (Utils.normalise piece)|].
  split; [apply trim_starts_clean|].
  split; [apply single_spaced_no_run with (in_run := false); apply normalise_single_spaced|].
  intros HLF.
  assert (E : LF = SP)
    by (apply (single_spaced_In _ false LF (normalise_single_spaced piece) HLF);
        reflexivity).
  discriminate.
Qed.

Lemma Pre_paragraphs_one_line_witness :
  In (lit "b c")
     (Pre_loop (split_paragraphs
                  (join_segments [SpanObj (lit "a" ++ [LF; LF] ++ lit "b" ++ [LF] ++ lit "c")]))
               [])
  /\ ~ In LF (lit "b c").
Proof.
  assert (H : In (lit "b c")
     (Pre_loop (split_paragraphs
                  (join_segments [SpanObj (lit "a" ++ [LF; LF] ++ lit "b" ++ [LF] ++ lit "c")]))
               [])) by (right; now left).
  split; [exact H|].
  apply (Pre_paragraphs_one_line _ _ H).
Defined.

(** ** Document, further *)

(** X15: [finish] throws exactly when the buffer is present and [args]
    does not begin with a block constructor: before the first [break],
    or a second time without a [start] in between. *)
Theorem finish_throws_iff (st : State) :
  Document.finish st = None
  <-> Document.isPresent st = true /\ forall block, args st <> ArgsBlock block.
Proof.
  split.
  - intros H. destruct (Document.isPresent st) eqn:E.
    + split; auto. intros block Ha.
      destruct (finish_present _ Ha E) as (rendered & _ & Hf). congruence.
    + rewrite (finish_absent _ E) in H. discriminate.
  - intros [Hp Ha]. unfold Document.finish, Document.blockContent.
    rewrite Hp. simpl.
    destruct st as [c s a j q g]. simpl in *.
    destruct a; [destruct q; reflexivity| |destruct q; reflexivity].
    exfalso. now apply (Ha block).
Qed.

Lemma finish_throws_iff_witness :
  Document.finish (set_segments [SpanObj (lit "a")] Document.initial) = None
  /\ (Document.finish ;; Document.finish) paragraph_a = None.
Proof.
  split.
  - apply (proj2 (finish_throws_iff _)). split; [reflexivity|discriminate].
  - unfold seq. change (Document.finish paragraph_a)
      with (Some (set_args ArgsSpent (set_content (lit "a" ++ [LF; LF]) paragraph_a))).
    apply (proj2 (finish_throws_iff _)). split; [reflexivity|discriminate].
Defined.

Lemma split_paragraphs_cons_witness :
  split_paragraphs (lit "a" ++ [LF] ++ lit "b" ++ [LF; LF; LF] ++ lit "c")
  = [lit "a" ++ [LF] ++ lit "b"; lit "c"].
Proof.
  change (lit "a" ++ [LF] ++ lit "b" ++ [LF; LF; LF] ++ lit "c")
    with ((lit "a" ++ [LF] ++ lit "b") ++ LF :: LF :: repeat LF 1 ++ lit "c").
  rewrite split_paragraphs_cons; [reflexivity|reflexivity|discriminate|reflexivity].
Defined.

(** ** Invariants of the traversal *)

Create HintDb respects.

Section Respects.

Variable R : State -> State -> Prop.
Hypothesis R_refl : forall st, R st st.
Hypothesis R_trans : forall a b c, R a b -> R b c -> R a c.
Hypothesis R_segments : forall segs st, R st (set_segments segs st).
Hypothesis R_break :
  forall block st st', Document.break block st = Some st' -> R st st'.
Hypothesis R_justAppendedBr : forall b st, R st (set_justAppendedBr b st).
Hypothesis R_inBlockquote : forall b st, R st (set_inBlockquote b st).
Hypothesis R_groupWithNext : forall b st, R st (set_groupWithNext b st).

Lemma respects_skip : respects R skip.
Proof. intros st st' H. injection H as <-. apply R_refl. Qed.

Lemma respects_throw : respects R throw.
Proof. intros st st' H. discriminate. Qed.

Lemma respects_seq (f g : Proc) :
  respects R f -> respects R g -> respects R (f ;; g).
Proof.
  intros Hf Hg st st' H. unfold seq in H.
  destruct (f st) as [st1|] eqn:E; [|discriminate].
  eapply R_trans; eauto.
Qed.

Lemma respects_push (segment : Segment) : respects R (Document.push segment).
Proof. intros st st' H. injection H as <-. apply R_segments. Qed.

Lemma respects_break (block : Block) : respects R (Document.break block).
Proof. intros st st' H. eapply R_break; eauto. Qed.

Lemma respects_set (f : State -> State) :
  (forall st, R st (f st)) -> respects R (fun st => Some (f st)).
Proof. intros Hf st st' H. injection H as <-. apply Hf. Qed.

Lemma respects_if (b : bool) (f g : Proc) :
  respects R f -> respects R g -> respects R (if b then f else g).
Proof. now destruct b. Qed.

#[local] Hint Resolve respects_skip respects_throw respects_seq respects_push
  respects_break respects_set respects_if : respects.

Variable options : Options.
Variable textProperty : TextProperty.
Variable domDocument : DomDocument.

Lemma respects_flow (children : Proc) :
  respects R children -> respects R (processFlowContent children).
Proof. intros H. unfold processFlowContent. auto 10 with respects. Qed.

Lemma respects_if_text (node : Node) (body : Proc) :
  respects R body -> respects R (if_text_present textProperty node body).
Proof.
  intros H. unfold if_text_present.
  destruct (node_text textProperty node); auto with respects.
Qed.

Lemma respects_option (A : Type) (o : option A) (f : A -> Proc) :
  (forall a, respects R (f a)) ->
  respects R (match o with Some a => f a | None => throw end).
Proof. intros H. destruct o; auto with respects. Qed.

#[local] Hint Resolve respects_flow respects_if_text respects_option : respects.

Lemma respects_process_element (node : Node) (name : string) (p : Props)
    (ctx : Context) (children : Proc) :
  respects R children ->
  respects R (process_element options textProperty node name p ctx children).
Proof.
  intros H. unfold process_element.
  destruct (ENHANCERS name); auto 10 with respects.
  repeat match goal with
         | |- respects R (if ?b then _ else _) => apply respects_if
         end; auto 10 with respects.
  - apply respects_seq; auto 10 with respects.
    intros st st' E. destruct (groupWithNext st).
    + injection E as <-. apply R_groupWithNext.
    + eapply R_break; eauto.
Qed.

Lemma respects_process_node (node : Node) (ctx : Context) (children : Proc) :
  respects R children ->
  respects R (process_node options textProperty domDocument node ctx children).
Proof.
  intros H st st' E. unfold process_node in E.
  destruct (skipped options domDocument node) as [[|]|]; try discriminate.
  - injection E as <-. apply R_refl.
  - unfold line_break_step in E.
    destruct (nodeName_lower node =? "br")%string.
    + destruct (justAppendedBr st).
      * destruct (Document.break Paragraph (set_justAppendedBr false st))
          as [st1|] eqn:E1; simpl in E; [|discriminate].
        injection E as <-.
        eapply R_trans; [apply (R_justAppendedBr false)|eapply R_break; eauto].
      * eapply R_trans; [apply (R_justAppendedBr true)|].
        revert E. generalize (set_justAppendedBr true st). intros st0 E.
        destruct node; simpl in E.
        -- eapply respects_process_element; eauto.
        -- eapply respects_push; eauto.
        -- eapply H; eauto.
    + assert (G : forall st0, dispatch options textProperty node ctx children st0 = Some st'
                              -> R st0 st').
      { intros st0 E0. destruct node; simpl in E0.
        - eapply respects_process_element; eauto.
        - eapply respects_push; eauto.
        - eapply H; eauto. }
      destruct (justAppendedBr st); simpl in E.
      * eapply R_trans; [|apply G; exact E].
        eapply R_trans; [apply (R_justAppendedBr false)|apply R_segments].
      * now apply G.
Qed.

Lemma respects_process_each (parent : string) (todo : list Node) :
  Forall (fun node => forall ctx,
            respects R (process options textProperty domDocument node ctx)) todo ->
  forall done,
    respects R (process_each options textProperty domDocument parent done todo).
Proof.
  induction 1 as [|child rest Hc _ IH]; intros done; simpl.
  - apply respects_skip.
  - apply respects_seq; auto.
Qed.

Lemma respects_process (node : Node) :
  forall ctx, respects R (process options textProperty domDocument node ctx).
Proof.
  induction node as [name p children IH|data|data] using Node_induction;
    intros ctx; rewrite process_unfold; apply respects_process_node.
  - simpl. now apply respects_process_each.
  - apply respects_skip.
  - apply respects_skip.
Qed.

Lemma respects_extract_loop (nodes : list (option Located)) :
  respects R (extract_loop (process options textProperty domDocument) nodes).
Proof.
  induction nodes as [|node rest IH]; simpl.
  - apply respects_skip.
  - apply respects_seq; [apply respects_break|].
    apply respects_seq;
      [destruct node; [apply respects_process|apply respects_throw]|].
    apply respects_seq; [apply respects_break|exact IH].
Qed.

End Respects.

Lemma appends_lines_refl (st : State) : appends_lines st st.
Proof. exists []. split; [now rewrite app_nil_r|now left]. Qed.

Lemma appends_lines_trans (a b c : State) :
  appends_lines a b -> appends_lines b c -> appends_lines a c.
Proof.
  intros (s1 & E1 & H1) (s2 & E2 & H2). exists (s1 ++ s2). split.
  - now rewrite E2, E1, app_assoc.
  - destruct H2 as [->|[t ->]].
    + rewrite app_nil_r. exact H1.
    + right. exists (s1 ++ t). now rewrite app_assoc.
Qed.

Lemma appends_lines_same (st st' : State) :
  content st' = content st -> appends_lines st st'.
Proof. intros E. exists []. split; [now rewrite app_nil_r|now left]. Qed.

(** What a block gives ends with a bare string that ends with a line
    feed. *)
Lemma toArray_trailing (block : Block) (segments : list Segment) :
  toArray block segments = []
  \/ exists init s, toArray block segments = init ++ [StringLit (s ++ [LF])].
Proof.
  destruct block; simpl.
  - unfold Pre_toArray. destruct (Pre_loop _ _) as [|p ps]; [now left|right].
    exists [], (join [LF; LF] (p :: ps) ++ [LF]).
    now rewrite <- app_assoc.
  - right. exists (StringLit (heading_marks level ++ [SP]) :: segments), [LF].
    reflexivity.
  - right. exists (StringLit (ListItem_prefix index) :: segments),
             (if last then [LF] else []).
    unfold ListItem_toArray. simpl. now destruct last.
  - right. now exists segments, [58%N].
  - right. exists segments, (if last then [LF] else []).
    unfold DefinitionDescription_toArray. now destruct last.
  - right. now exists segments, [LF].
Qed.

Lemma finish_appends_lines (st st' : State) :
  Document.finish st = Some st' -> appends_lines st st'.
Proof.
  unfold Document.finish, Document.blockContent.
  destruct (Document.isPresent st); simpl.
  - destruct st as [c s a j q g]. simpl.
    assert (G : forall pre,
      match
        match a with
        | ArgsBlock block =>
            match Stringifier.stringify (toArray block s) with
            | Some text => Some (text, pre)
            | None => None
            end
        | _ => None
        end
      with
      | Some (text, st'0) => Some (set_content (c ++ content pre ++ text) st'0)
      | None => None
      end = Some st' ->
      exists suffix, content st' = c ++ content pre ++ suffix
                     /\ exists text, suffix = text ++ [LF]).
    { intros pre H. destruct a as [|block|]; try discriminate.
      destruct (toArray_trailing block s) as [E|(init & l & E)]; rewrite E in H.
      - discriminate.
      - destruct (stringify_trailing_literal (l ++ [LF]) init) as [t Ht].
        rewrite Ht in H. injection H as <-. simpl.
        exists (t ++ l ++ [LF]). split; auto.
        exists (t ++ l). now rewrite <- app_assoc. }
    destruct q; simpl; intros H.
    + destruct (G (set_content (lit "> ")
                     (set_args ArgsSpent
                        {| content := c; segments := s; args := a;
                           justAppendedBr := j; inBlockquote := true;
                           groupWithNext := g |}))) as (suffix & E & text & Et).
      { destruct a; try discriminate. simpl in *.
        destruct (Stringifier.stringify (toArray block s)); [|discriminate].
        injection H as <-. simpl. now rewrite <- app_assoc. }
      simpl in E. exists (lit "> " ++ suffix). split; [exact E|].
      right. exists (lit "> " ++ text). rewrite Et. now rewrite <- app_assoc.
    + destruct (G (set_content []
                     (set_args ArgsSpent
                        {| content := c; segments := s; args := a;
                           justAppendedBr := j; inBlockquote := false;
                           groupWithNext := g |}))) as (suffix & E & text & Et).
      { destruct a; try discriminate. simpl in *.
        destruct (Stringifier.stringify (toArray block s)); [|discriminate].
        injection H as <-. reflexivity. }
      simpl in E. exists suffix. split; [exact E|]. right. now exists text.
  - intros H. injection H as <-. apply appends_lines_refl.
Qed.

Lemma break_appends_lines (block : Block) (st st' : State) :
  Document.break block st = Some st' -> appends_lines st st'.
Proof.
  unfold Document.break, seq. intros H.
  destruct (Document.finish st) as [st1|] eqn:E; [|discriminate].
  injection H as <-.
  eapply appends_lines_trans; [apply (finish_appends_lines _ E)|].
  now apply appends_lines_same.
Qed.

(** X17: whatever [process] does to a node, it only appends to the
    output, and what it appends is empty or ends with a line feed. *)
Theorem process_appends_lines (options : Options) (textProperty : TextProperty)
    (domDocument : DomDocument) (node : Node) (ctx : Context) (st st' : State) :
  process options textProperty domDocument node ctx st = Some st' ->
  exists suffix,
    content st' = content st ++ suffix
    /\ (suffix = [] \/ exists text, suffix = text ++ [LF]).
Proof.
  intros H. revert st st' H.
  change (respects appends_lines
            (process options textProperty domDocument node ctx)).
  apply respects_process;
    first [exact appends_lines_refl | exact appends_lines_trans
          | exact break_appends_lines | intros; now apply appends_lines_same].
Qed.

Lemma process_appends_lines_witness :
  exists suffix,
    lit "x" ++ lit "* a" ++ [LF; LF] = lit "x" ++ suffix
    /\ (suffix = [] \/ exists text, suffix = text ++ [LF]).
Proof.
  apply (@process_appends_lines default_options TextContentProperty
           hidden_document (elem "li" [Text (lit "a")]) (only_child "ul")
           paragraph_blank
           {| content := lit "x" ++ lit "* a" ++ [LF; LF]; segments := [];
              args := ArgsBlock Paragraph; justAppendedBr := false;
              inBlockquote := false; groupWithNext := false |}).
  reflexivity.
Defined.

Lemma extract_state_appends_lines (input : Input) (options : Options) (st : State) :
  extract_state input options = Some st -> appends_lines Document.initial st.
Proof.
  unfold extract_state.
  destruct (map convertNode (arrayify input)) as [|[first|] rest] eqn:E.
  - simpl. intros H. injection H as <-. apply appends_lines_refl.
  - intros H.
    assert (G : respects appends_lines
                  (extract_loop
                     (process options (choose_textProperty (located_node first))
                              (ownerDocument first))
                     (Some first :: rest))).
    2: exact (G _ _ H).
    apply respects_extract_loop;
      first [exact appends_lines_refl | exact appends_lines_trans
            | exact break_appends_lines | intros; now apply appends_lines_same].
  - discriminate.
Qed.

(** X18: the output that [extract] has accumulated when its loop ends is
    empty or ends with a line feed. *)
Theorem extract_content_ends_with_line_feed (input : Input) (options : Options)
    (text : str) :
  extract_content input options = Some text ->
  text = [] \/ exists body, text = body ++ [LF].
Proof.
  unfold extract_content. intros H.
  destruct (extract_state input options) as [st|] eqn:E; [|discriminate].
  injection H as <-.
  destruct (extract_state_appends_lines _ _ E) as (suffix & Hs & Hl).
  simpl in Hs. now rewrite Hs.
Qed.

Lemma extract_content_ends_with_line_feed_witness :
  lit "* a" ++ [LF] ++ lit "* b" ++ [LF; LF] = []
  \/ exists body, lit "* a" ++ [LF] ++ lit "* b" ++ [LF; LF] = body ++ [LF].
Proof.
  apply (@extract_content_ends_with_line_feed (detached ul_a_b) default_options).
  vm_compute. reflexivity.
Defined.

Lemma trim_ends_clean (text : str) : starts_clean (rev (trim text)) = true.
Proof.
  unfold trim. rewrite rev_involutive. apply drop_while_starts_clean.
Qed.

(** X19: the text that [deba] returns neither begins nor ends with
    white space, and trimming it again changes nothing. *)
Theorem deba_trimmed (input : Input) (options : Options) (text : str) :
  deba input options = Some text ->
  starts_clean text = true
  /\ starts_clean (rev text) = true
  /\ trim text = text.
Proof.
  unfold deba. intros H.
  destruct (extract_content input options) as [c|]; [|discriminate].
  injection H as <-.
  split; [apply trim_starts_clean|].
  split; [apply trim_ends_clean|apply trim_idempotent].
Qed.

Lemma deba_trimmed_witness :
  starts_clean (lit "[t](http://e.com/)") = true
  /\ starts_clean (rev (lit "[t](http://e.com/)")) = true
  /\ trim (lit "[t](http://e.com/)") = lit "[t](http://e.com/)".
Proof.
  apply (@deba_trimmed (detached a_t) default_options).
  vm_compute. reflexivity.
Defined.

(** ** When the traversal returns *)

Create HintDb ready.

Lemma returns_skip : returns_ready skip.
Proof. intros st H. now exists st. Qed.

Lemma returns_seq (f g : Proc) :
  returns_ready f -> returns_ready g -> returns_ready (f ;; g).
Proof.
  intros Hf Hg st H. destruct (Hf st H) as (st1 & E1 & H1).
  destruct (Hg st1 H1) as (st2 & E2 & H2).
  exists st2. unfold seq. now rewrite E1.
Qed.

Lemma returns_push (segment : Segment) : returns_ready (Document.push segment).
Proof. intros st H. eexists. split; [reflexivity|exact H]. Qed.

Lemma returns_set_justAppendedBr (b : bool) :
  returns_ready (fun st => Some (set_justAppendedBr b st)).
Proof. intros st H. eexists. split; [reflexivity|exact H]. Qed.

Lemma returns_set_inBlockquote (b : bool) :
  returns_ready (fun st => Some (set_inBlockquote b st)).
Proof. intros st H. eexists. split; [reflexivity|exact H]. Qed.

Lemma returns_set_groupWithNext (b : bool) :
  returns_ready (fun st => Some (set_groupWithNext b st)).
Proof. intros st H. eexists. split; [reflexivity|exact H]. Qed.

Lemma finish_returns (st : State) :
  ready st = true -> exists st', Document.finish st = Some st'.
Proof.
  unfold ready. intros H.
  destruct (Document.isPresent st) eqn:E.
  - destruct (args st) as [|block|] eqn:Ha; try discriminate.
    destruct (finish_present _ Ha E) as (rendered & _ & Hf). eauto.
  - rewrite (finish_absent _ E). eauto.
Qed.

Lemma returns_break (block : Block) : returns_ready (Document.break block).
Proof.
  intros st H. destruct (finish_returns _ H) as [st1 E].
  unfold Document.break, seq. rewrite E. eexists. split; reflexivity.
Qed.

Lemma returns_if (b : bool) (f g : Proc) :
  returns_ready f -> returns_ready g -> returns_ready (if b then f else g).
Proof. now destruct b. Qed.

Lemma returns_flow (children : Proc) :
  returns_ready children -> returns_ready (processFlowContent children).
Proof.
  intros H. unfold processFlowContent.
  apply returns_seq; [apply returns_set_groupWithNext|].
  apply returns_seq; [exact H|].
  apply returns_seq; [apply returns_set_groupWithNext|apply returns_break].
Qed.

#[local] Hint Resolve returns_skip returns_seq returns_push returns_break
  returns_set_justAppendedBr returns_set_inBlockquote returns_set_groupWithNext
  returns_if returns_flow : ready.

Section Returns.

Variable options : Options.
Variable textProperty : TextProperty.
Variable domDocument : DomDocument.

Hypothesis no_exclude : exclude options = None.

Lemma isElementVisible_defined (node : Node) :
  excludeHidden options = true ->
  exists b, isElementVisible options domDocument node = Some b.
Proof.
  intros H. unfold isElementVisible, pageBounds, getPageBounds.
  destruct (negb (isDomReal domDocument)) eqn:E; [eauto|].
  rewrite H. simpl.
  destruct node as [name p children| |]; eauto.
  destruct (_ && _); eauto.
Qed.

Lemma skipped_defined (node : Node) :
  exists b, skipped options domDocument node = Some b.
Proof.
  unfold skipped. rewrite no_exclude.
  destruct (includes SKIP_TAGS (nodeName_lower node)); eauto.
  destruct (excludeHidden options) eqn:E; eauto.
  destruct (isElementVisible_defined node E) as [b ->]. simpl. eauto.
Qed.

Lemma returns_process_element (name : string) (p : Props) (children : list Node)
    (ctx : Context) (kids : Proc) :
  defined_node textProperty (Element name p children) = true ->
  parentNode ctx <> None ->
  returns_ready kids ->
  returns_ready (process_element options textProperty
                   (Element name p children) name p ctx kids).
Proof.
  intros Hd Hp Hk. simpl in Hd.
  apply andb_true_iff in Hd as [Hd _]. apply andb_true_iff in Hd as [Hd Hval].
  apply andb_true_iff in Hd as [Hd Halt]. apply andb_true_iff in Hd as [He Ht].
  assert (Htext : exists text,
            node_text textProperty (Element name p children) = Some text).
  { unfold node_text. destruct textProperty; eauto.
    destruct (innerText p); [eauto|discriminate]. }
  destruct Htext as [text Htext].
  assert (Hif : forall body, returns_ready body ->
            returns_ready (if_text_present textProperty
                             (Element name p children) body)).
  { intros body Hb. unfold if_text_present. rewrite Htext.
    destruct (Utils.isPresent text); auto with ready. }
  unfold process_element.
  destruct (ENHANCERS name); [auto 10 with ready|discriminate|].
  destruct (alt p) as [a|];
    [|apply negb_true_iff in Halt; rewrite Halt, andb_false_r];
    (destruct (value p) as [v|];
     [|apply negb_true_iff in Hval; rewrite Hval]);
    cbv iota;
    repeat match goal with
           | |- returns_ready (if ?b then _ else _) => apply returns_if
           end; auto 10 with ready;
    try (destruct (parentNode ctx); [auto 10 with ready|congruence]);
    (apply returns_seq; auto 10 with ready;
     intros st H; destruct (groupWithNext st);
     [eexists; split; [reflexivity|exact H]|now apply returns_break]).
Qed.

Lemma returns_process_node (node : Node) (ctx : Context) (kids : Proc) :
  defined_node textProperty node = true ->
  parentNode ctx <> None ->
  returns_ready kids ->
  returns_ready (process_node options textProperty domDocument node ctx kids).
Proof.
  intros Hd Hp Hk st H. unfold process_node.
  destruct (skipped_defined node) as [[|] ->]; [eauto|].
  assert (G : returns_ready (dispatch options textProperty node ctx kids)).
  { destruct node; simpl; auto with ready.
    now apply returns_process_element. }
  unfold line_break_step.
  destruct (nodeName_lower node =? "br")%string.
  - destruct (justAppendedBr st).
    + destruct (returns_break Paragraph (set_justAppendedBr false st) H)
        as (st1 & -> & H1). simpl. eauto.
    + apply G. exact H.
  - destruct (justAppendedBr st); simpl; apply G; exact H.
Qed.

Lemma returns_process_each (parent : string) (todo : list Node) :
  Forall (fun node =>
            defined_node textProperty node = true ->
            forall ctx, parentNode ctx <> None ->
              returns_ready (process options textProperty domDocument node ctx))
         todo ->
  forallb (defined_node textProperty) todo = true ->
  forall done,
    returns_ready (process_each options textProperty domDocument parent done todo).
Proof.
  induction 1 as [|child rest Hc _ IH]; intros Hd done; simpl.
  - apply returns_skip.
  - simpl in Hd. apply andb_true_iff in Hd as [Hd1 Hd2].
    apply returns_seq; auto. apply Hc; auto. discriminate.
Qed.

Lemma returns_process (node : Node) :
  defined_node textProperty node = true ->
  forall ctx, parentNode ctx <> None ->
    returns_ready (process options textProperty domDocument node ctx).
Proof.
  induction node as [name p children IH|data|data] using Node_induction;
    intros Hd ctx Hp; rewrite process_unfold;
    apply returns_process_node; auto using returns_skip.
  simpl. apply returns_process_each; auto.
  simpl in Hd. now apply andb_true_iff in Hd as [_ Hd].
Qed.

End Returns.

(** X20: [process] returns, and leaves [args] with a block constructor
    at its head, when it is called in such a state on a node with a
    parent, without an [exclude] option, in a tree where every element
    has the text property that is read, every [img] an [alt], every
    [textarea] a [value], and none is named [constructor] or
    [__proto__]. *)
Theorem process_returns (options : Options) (textProperty : TextProperty)
    (domDocument : DomDocument) (node : Node) (ctx : Context) (st : State) :
  exclude options = None ->
  defined_node textProperty node = true ->
  parentNode ctx <> None ->
  ready st = true ->
  exists st',
    process options textProperty domDocument node ctx st = Some st'
    /\ ready st' = true.
Proof.
  intros He Hd Hp Hr. now apply returns_process.
Qed.

Lemma process_returns_witness :
  exists st',
    process default_options TextContentProperty hidden_document ul_br_br
      (only_child "body") paragraph_a = Some st'
    /\ ready st' = true.
Proof.
  apply process_returns; [reflexivity|reflexivity|discriminate|reflexivity].
Defined.

(** X21: [deba] returns a text for every input without an [exclude]
    option whose nodes are there, have a parent, and are defined for the
    text property of the first of them. *)
Theorem deba_returns (input : Input) (options : Options) :
  exclude options = None ->
  input_defined input = true ->
  exists text, deba input options = Some text.
Proof.
  intros He Hd. unfold deba, extract_content, extract_state.
  unfold input_defined in Hd.
  destruct (map convertNode (arrayify input)) as [|[first|] rest];
    [simpl; eauto| |discriminate].
  set (tp := choose_textProperty (located_node first)) in *.
  assert (G : forall nodes,
    forallb (fun node =>
               match node with
               | Some n =>
                   defined_node tp (located_node n)
                   && match parentNode (located_context n) with
                      | Some _ => true
                      | None => false
                      end
               | None => false
               end) nodes = true ->
    returns_ready (extract_loop (process options tp (ownerDocument first)) nodes)).
  { induction nodes as [|node nodes' IH]; simpl; intros H.
    - apply returns_skip.
    - apply andb_true_iff in H as [Hn Hrest].
      destruct node as [n|]; [|discriminate].
      apply andb_true_iff in Hn as [Hn1 Hn2].
      apply returns_seq; [apply returns_break|].
      apply returns_seq.
      + apply returns_process; auto.
        destruct (parentNode (located_context n)); [discriminate|discriminate].
      + apply returns_seq; [apply returns_break|now apply IH]. }
  (* the first [break] is called with empty [args], on an empty buffer *)
  simpl extract_loop. unfold seq at 1.
  change (Document.break Paragraph Document.initial)
    with (Some (set_args (ArgsBlock Paragraph) Document.initial)).
  cbv beta iota.
  simpl in Hd. apply andb_true_iff in Hd as [Hfirst Hrest].
  apply andb_true_iff in Hfirst as [Hf1 Hf2].
  assert (Hready : ready (set_args (ArgsBlock Paragraph) Document.initial) = true)
    by reflexivity.
  assert (Hp : returns_ready
                 (process options tp (ownerDocument first) (located_node first)
                          (located_context first) ;;
                  Document.break Paragraph ;;
                  extract_loop (process options tp (ownerDocument first)) rest)).
  { apply returns_seq.
    - apply returns_process; auto.
      destruct (parentNode (located_context first)); discriminate.
    - apply returns_seq; [apply returns_break|now apply G]. }
  destruct (Hp _ Hready) as (st' & E & _).
  rewrite E. simpl. eauto.
Qed.

Lemma deba_returns_witness :
  exists text, deba (detached ul_br_br) default_options = Some text.
Proof. apply deba_returns; reflexivity. Defined.

(** ** What [process] does with the kinds of nodes *)

Lemma ends_fresh_break : ends_fresh (Document.break Paragraph).
Proof.
  intros st st' H. unfold Document.break, seq in H.
  destruct (Document.finish st); [|discriminate].
  injection H as <-. now split.
Qed.

Lemma ends_fresh_seq (f g : Proc) : ends_fresh g -> ends_fresh (f ;; g).
Proof.
  intros Hg st st' H. unfold seq in H.
  destruct (f st); [|discriminate]. eapply Hg; eauto.
Qed.

Lemma ends_fresh_throw : ends_fresh throw.
Proof. intros st st' H. discriminate. Qed.

Lemma ends_fresh_flow (children : Proc) :
  ends_fresh (processFlowContent children).
Proof.
  unfold processFlowContent.
  do 3 apply ends_fresh_seq. apply ends_fresh_break.
Qed.

Lemma ends_fresh_unquote (f : Proc) :
  ends_fresh f -> ends_fresh (f ;; (fun st => Some (set_inBlockquote false st))).
Proof.
  intros Hf st st' H. unfold seq in H.
  destruct (f st) as [st1|] eqn:E; [|discriminate].
  injection H as <-. simpl. eapply Hf; eauto.
Qed.

Section Kinds.

Variable options : Options.
Variable textProperty : TextProperty.
Variable domDocument : DomDocument.

Local Abbreviation process := (process options textProperty domDocument).
Local Abbreviation processChildren :=
  (processChildren options textProperty domDocument).
Local Abbreviation skipped := (skipped options domDocument).

(** X22: an element named [textarea], or with a block-initiating or a
    heading tag, when it is not left out, leaves an empty buffer whose
    block is a paragraph. *)
Theorem block_element_leaves_fresh_paragraph (name : string) (p : Props)
    (children : list Node) (ctx : Context) (st st' : State) :
  includes block_names name = true ->
  skipped (Element name p children) = Some false ->
  process (Element name p children) ctx st = Some st' ->
  segments st' = [] /\ args st' = ArgsBlock Paragraph.
Proof.
  intros Hn Hs. rewrite process_flush; auto.
  2:{ intros E. simpl in E. subst name. discriminate. }
  revert st'. generalize (flush_line_break st). clear st.
  change (ends_fresh (dispatch options textProperty (Element name p children) ctx
                        (processChildren (Element name p children)))).
  generalize (processChildren (Element name p children)). intros kids.
  unfold includes, block_names, BLOCK_INITIATING_TAGS, HEADING_TAGS in Hn.
  simpl in Hn.
  repeat (apply orb_true_iff in Hn as [Hn|Hn]);
    try discriminate; apply String.eqb_eq in Hn; subst name;
    unfold dispatch, process_element; simpl; rewrite ?andb_false_r; simpl;
    try (destruct (parentNode ctx));
    auto 8 using ends_fresh_break, ends_fresh_seq, ends_fresh_throw,
      ends_fresh_flow, ends_fresh_unquote.
Qed.

(** X23: an element with one of the tags [head], [style], [script] and
    [noscript], and, when hidden elements are excluded in a document that
    is shown and no selector is, an element without width, height and
    boxes, is left out whole: [process] returns the state it was given,
    a pending line break included. *)
Theorem left_out_element_untouched (name : string) (p : Props)
    (children : list Node) (ctx : Context) (st : State) :
  includes SKIP_TAGS name = true
  \/ (hidden domDocument = false
      /\ excludeHidden options = true
      /\ exclude options = None
      /\ offsetWidth p = 0%Z /\ offsetHeight p = 0%Z /\ clientRects p = 0) ->
  process (Element name p children) ctx st = Some st.
Proof.
  intros H. rewrite process_unfold. unfold process_node.
  replace (skipped (Element name p children)) with (Some true); auto.
  symmetry. unfold skipped. simpl nodeName_lower.
  destruct H as [H|(Hh & He & Hx & Hw & Hhe & Hc)].
  - now rewrite H.
  - destruct (includes SKIP_TAGS name); auto.
    rewrite Hx, He. unfold isElementVisible, isDomReal.
    rewrite Hh, Hw, Hhe, Hc. reflexivity.
Qed.

(** X24: with a selector in the [exclude] option, [process] throws on a
    text node and on a comment, which have no [matches] method. *)
Theorem process_text_with_exclude_throws (selector : string)
    (selectors : list string) (node : Node) (ctx : Context) (st : State) :
  exclude options = Some (selector :: selectors) ->
  is_element node = false ->
  process node ctx st = None.
Proof.
  intros He Hn. rewrite process_unfold. unfold process_node, skipped.
  rewrite He. now destruct node.
Qed.

(** X25: [process] throws on an [li] element without a parent node that
    is not left out. *)
Theorem process_detached_li_throws (p : Props) (children : list Node)
    (ctx : Context) (st : State) :
  skipped (Element "li" p children) = Some false ->
  parentNode ctx = None ->
  process (Element "li" p children) ctx st = None.
Proof.
  intros Hs Hp. rewrite process_flush by (auto; discriminate).
  unfold dispatch, process_element. simpl. rewrite !andb_false_r. simpl.
  now rewrite Hp.
Qed.

(** X26: an image, when images are enabled, pushes one raw Span, made of
    the escaped [alt] and of the [src] as it is, and its children are not
    visited; it throws when it has no [alt]; when images are disabled only
    its children are processed. *)
Theorem image_rendering (p : Props) (children : list Node) (ctx : Context)
    (st : State) :
  skipped (Element "img" p children) = Some false ->
  process (Element "img" p children) ctx st
  = if images options
    then match alt p with
         | Some text =>
             Document.push
               (SpanObj (lit "![" ++ Utils.escape text ++ lit "](" ++ src p
                           ++ lit ")"))
               (flush_line_break st)
         | None => None
         end
    else processChildren (Element "img" p children) (flush_line_break st).
Proof.
  intros Hs. rewrite process_flush by (auto; discriminate).
  unfold dispatch, process_element. simpl.
  rewrite andb_true_r, !andb_false_r.
  destruct (images options); [now destruct (alt p)|reflexivity].
Qed.

(** X27: an element [b] or [strong], [i] or [em], pushes its marker as a
    raw Span before and after its children when its text is present, and
    is left out, children and all, when its text is blank. *)
Theorem emphasis_rendering (name : string) (p : Props) (children : list Node)
    (ctx : Context) (st : State) (text : str) :
  includes ["b"; "strong"; "i"; "em"]%string name = true ->
  skipped (Element name p children) = Some false ->
  node_text textProperty (Element name p children) = Some text ->
  process (Element name p children) ctx st
  = if Utils.isPresent text
    then
      let marker :=
        SpanObj (if (name =? "b")%string || (name =? "strong")%string
                 then lit "**" else lit "*") in
      (Document.push marker ;;
       processChildren (Element name p children) ;;
       Document.push marker) (flush_line_break st)
    else Some (flush_line_break st).
Proof.
  intros Hn Hs Ht. rewrite process_flush; auto.
  2:{ intros E. simpl in E. subst name. discriminate. }
  unfold includes in Hn. simpl in Hn.
  repeat (apply orb_true_iff in Hn as [Hn|Hn]);
    try discriminate; apply String.eqb_eq in Hn; subst name;
    unfold dispatch, process_element, if_text_present; simpl ENHANCERS;
    cbv iota; rewrite Ht; destruct (Utils.isPresent text); reflexivity.
Qed.

(** X28: after a [blockquote] element that is not left out has been
    processed, the blockquote flag is off, whatever it was before: what
    follows a blockquote nested in another one gets no ["> "]. *)
Theorem blockquote_clears_flag (p : Props) (children : list Node)
    (ctx : Context) (st st' : State) :
  skipped (Element "blockquote" p children) = Some false ->
  process (Element "blockquote" p children) ctx st = Some st' ->
  inBlockquote st' = false.
Proof.
  intros Hs. rewrite process_flush by (auto; discriminate).
  unfold dispatch, process_element. simpl. rewrite !andb_false_r. simpl.
  generalize (flush_line_break st). intros st0 H.
  unfold seq in H.
  destruct (Document.break Paragraph (set_inBlockquote true st0)); [|discriminate].
  destruct (processFlowContent _ _); [|discriminate].
  now injection H as <-.
Qed.

End Kinds.

Section Between.

Variable options : Options.
Variable textProperty : TextProperty.
Variable domDocument : DomDocument.

Local Abbreviation process := (process options textProperty domDocument).
Local Abbreviation skipped := (skipped options domDocument).

(** X29: a node that is left out between two line breaks does not part
    them: the three together amount to [break(Paragraph)]. *)
Theorem line_breaks_across_left_out_node (p1 p2 : Props) (node : Node)
    (ctx1 ctx2 ctx3 : Context) (st : State) :
  justAppendedBr st = false ->
  skipped (Element "br" p1 []) = Some false ->
  skipped node = Some true ->
  skipped (Element "br" p2 []) = Some false ->
  (process (Element "br" p1 []) ctx1 ;;
   process node ctx2 ;;
   process (Element "br" p2 []) ctx3) st
  = Document.break Paragraph st.
Proof.
  intros Hb H1 Hn H2. unfold seq.
  rewrite process_first_br by assumption.
  rewrite (process_unfold _ _ _ node). unfold process_node. rewrite Hn.
  rewrite process_second_br by auto.
  now rewrite set_justAppendedBr_back.
Qed.

End Between.

Lemma line_breaks_across_left_out_node_witness :
  (process default_options TextContentProperty hidden_document br (only_child "p") ;;
   process default_options TextContentProperty hidden_document
     (elem "script" [Text (lit "x")]) (only_child "p") ;;
   process default_options TextContentProperty hidden_document br (only_child "p"))
    paragraph_a
  = Some {| content := lit "a" ++ [LF; LF]; segments := [];
            args := ArgsBlock Paragraph; justAppendedBr := false;
            inBlockquote := false; groupWithNext := false |}.
Proof.
  unfold br, elem.
  rewrite (@line_breaks_across_left_out_node default_options TextContentProperty
             hidden_document plain_props plain_props
             (Element "script" plain_props [Text (lit "x")])
             (only_child "p") (only_child "p") (only_child "p") paragraph_a
             eq_refl eq_refl eq_refl eq_refl).
  reflexivity.
Defined.

(** ** The page bounds *)

Lemma tallest_fold (heights : list Z) (start : Z) :
  let tallest :=
    fold_left (fun tallest elementHeight =>
                 if (elementHeight >? tallest)%Z then elementHeight else tallest)
              heights start in
  (start <= tallest)%Z
  /\ (forall h, In h heights -> (h <= tallest)%Z)
  /\ (tallest = start \/ In tallest heights).
Proof.
  revert start. induction heights as [|x rest IH]; intros start; simpl.
  - repeat split; [lia|contradiction|now left].
  - destruct (Z.gtb_spec x start) as [Hgt|Hle].
    + destruct (IH x) as (H1 & H2 & H3). repeat split.
      * lia.
      * intros h [<-|Hh]; auto.
      * destruct H3 as [->|H3]; auto.
    + destruct (IH start) as (H1 & H2 & H3). repeat split.
      * exact H1.
      * intros h [<-|Hh]; [lia|auto].
      * destruct H3 as [H3|H3]; auto.
Qed.

(** X30: [getPageBounds] gives [null] unless the document is shown and
    hidden elements are excluded; otherwise a rectangle from the origin,
    as wide as the root element scrolls, whose bottom is the largest
    scroll height, and 0 when no height is above 0. *)
Theorem getPageBounds_tallest (options : Options) (domDocument : DomDocument) :
  match getPageBounds options domDocument with
  | None => hidden domDocument = true \/ excludeHidden options = false
  | Some bounds =>
      hidden domDocument = false /\ excludeHidden options = true
      /\ bounds_top bounds = 0%Z /\ bounds_left bounds = 0%Z
      /\ bounds_right bounds = scrollWidth domDocument
      /\ (0 <= bounds_bottom bounds)%Z
      /\ (forall h, In h (scrollHeights domDocument) ->
                    (h <= bounds_bottom bounds)%Z)
      /\ (bounds_bottom bounds = 0%Z
          \/ In (bounds_bottom bounds) (scrollHeights domDocument))
  end.
Proof.
  unfold getPageBounds, isDomReal.
  destruct (hidden domDocument); simpl; [now left|].
  destruct (excludeHidden options); simpl; [|now right].
  destruct (tallest_fold (scrollHeights domDocument) 0) as (H1 & H2 & H3).
  repeat split; auto.
Qed.

(** ** Instances, further *)

Lemma normalise_keeps_text_witness :
  filter not_space (Utils.normalise ([LF; 9%N] ++ lit "a" ++ [LF; SP] ++ lit "b "))
  = lit "ab"
  /\ Utils.normalise ([LF; 9%N] ++ lit "a" ++ [LF; SP] ++ lit "b ") = lit "a b".
Proof.
  destruct (normalise_keeps_text ([LF; 9%N] ++ lit "a" ++ [LF; SP] ++ lit "b "))
    as (H1 & H2 & _).
  split; [rewrite H1; reflexivity|].
  assert (E : SP = SP) by (apply H2; [right; now left|reflexivity]).
  reflexivity.
Defined.

Lemma block_element_leaves_fresh_paragraph_witness :
  segments {| content := lit "a" ++ [LF; LF] ++ lit "## b" ++ [LF; LF];
              segments := []; args := ArgsBlock Paragraph;
              justAppendedBr := false; inBlockquote := false;
              groupWithNext := false |} = []
  /\ args {| content := lit "a" ++ [LF; LF] ++ lit "## b" ++ [LF; LF];
             segments := []; args := ArgsBlock Paragraph;
             justAppendedBr := false; inBlockquote := false;
             groupWithNext := false |} = ArgsBlock Paragraph.
Proof.
  apply (@block_element_leaves_fresh_paragraph default_options TextContentProperty
           hidden_document "h2" plain_props [Text (lit "b")] (only_child "body")
           paragraph_a); reflexivity.
Defined.

Lemma left_out_element_untouched_witness :
  process default_options TextContentProperty hidden_document
    (elem "script" [Text (lit "x")]) (only_child "p")
    (set_justAppendedBr true paragraph_a)
  = Some (set_justAppendedBr true paragraph_a)
  /\ process default_options TextContentProperty shown_document
       (elem "div" [Text (lit "x")]) (only_child "body") paragraph_a
     = Some paragraph_a.
Proof.
  split.
  - apply left_out_element_untouched. now left.
  - apply left_out_element_untouched. right. repeat split.
Defined.

Lemma process_text_with_exclude_throws_witness :
  process exclude_div TextContentProperty hidden_document (Text (lit "a"))
    (only_child "p") paragraph_a = None.
Proof.
  apply (@process_text_with_exclude_throws exclude_div TextContentProperty
           hidden_document "div" []); reflexivity.
Defined.

Lemma process_detached_li_throws_witness :
  process default_options TextContentProperty hidden_document
    (elem "li" [Text (lit "a")])
    {| parentNode := None; before := []; after := [] |} paragraph_a = None.
Proof. apply process_detached_li_throws; reflexivity. Defined.

Lemma image_rendering_witness :
  process default_options TextContentProperty hidden_document img_star
    (only_child "p") paragraph_a
  = Some {| content := [];
            segments := [SpanObj (lit "a");
                         SpanObj (lit "![a\*b](http://e.com/i.png)")];
            args := ArgsBlock Paragraph; justAppendedBr := false;
            inBlockquote := false; groupWithNext := false |}.
Proof.
  unfold img_star. rewrite image_rendering by reflexivity. reflexivity.
Defined.

Lemma emphasis_rendering_witness :
  process default_options TextContentProperty hidden_document
    (elem "em" [Text (lit "b")]) (only_child "p") paragraph_a
  = Some {| content := [];
            segments := [SpanObj (lit "a"); SpanObj (lit "*");
                         SpanObj (lit "b"); SpanObj (lit "*")];
            args := ArgsBlock Paragraph; justAppendedBr := false;
            inBlockquote := false; groupWithNext := false |}
  /\ process default_options TextContentProperty hidden_document
       (elem "strong" [Text [SP]]) (only_child "p") paragraph_a
     = Some paragraph_a.
Proof.
  unfold elem. split.
  - rewrite (@emphasis_rendering default_options TextContentProperty
               hidden_document "em" plain_props [Text (lit "b")]
               (only_child "p") paragraph_a (lit "b") eq_refl eq_refl eq_refl).
    reflexivity.
  - rewrite (@emphasis_rendering default_options TextContentProperty
               hidden_document "strong" plain_props [Text [SP]]
               (only_child "p") paragraph_a [SP] eq_refl eq_refl eq_refl).
    reflexivity.
Defined.

Lemma blockquote_clears_flag_witness :
  inBlockquote
    {| content := lit "> a" ++ [LF; LF]; segments := [];
       args := ArgsBlock Paragraph; justAppendedBr := false;
       inBlockquote := false; groupWithNext := false |} = false
  /\ extract_content (detached nested_blockquote) default_options
     = Some (lit "> a" ++ [LF; LF] ++ lit "b" ++ [LF; LF]).
Proof.
  split.
  - apply (@blockquote_clears_flag default_options TextContentProperty
             hidden_document plain_props [Text (lit "a")]
             (only_child "blockquote") (set_inBlockquote true fresh_paragraph));
      reflexivity.
  - vm_compute. reflexivity.
Defined.

Lemma Pre_toArray_spec_witness :
  Document.finish pre_block
  = Some (set_args ArgsSpent
            (set_content
               (lit "x" ++ lit "a b" ++ [LF; LF] ++ lit "c d" ++ [LF; LF])
               pre_block))
  /\ Document.finish pre_blank = Some pre_blank
  /\ skipped default_options hidden_document (elem "pre" [Text pre_sample])
     = Some false
  /\ process default_options TextContentProperty hidden_document
       (elem "pre" [Text pre_sample]) (only_child "body") fresh_paragraph
     = Some {| content := lit "a b" ++ [LF; LF] ++ lit "c d" ++ [LF; LF];
               segments := []; args := ArgsBlock Paragraph;
               justAppendedBr := false; inBlockquote := false;
               groupWithNext := false |}.
Proof.
  destruct (Pre_toArray_spec [SpanObj pre_sample]) as (_ & _ & H3 & H4 & _).
  destruct (Pre_toArray_spec [StringLit [LF]; SpanObj [SP]]) as (_ & _ & H3' & _).
  split; [|split; [|split]].
  - destruct (H3 pre_block eq_refl eq_refl) as [H _]. rewrite H. reflexivity.
  - destruct (H3' pre_blank eq_refl eq_refl) as [H Hp].
    rewrite H. now rewrite (Hp eq_refl).
  - reflexivity.
  - unfold elem. rewrite H4 by reflexivity. vm_compute. reflexivity.
Defined.

(** An element named [textarea] without a [value], and one named [img]
    without an [alt], make [deba] throw. *)
Example textarea_without_value_throws :
  deba (detached (elem "textarea" [Text (lit "x")])) default_options = None
  /\ deba (detached (elem "img" [])) default_options = None.
Proof. split; reflexivity. Qed.
